(** * Web-analytics report pipeline (travis_magaluk_coding_exercise.py)

    A shallow embedding of the five table transformations of the script
    ([clean_tables], [create_month_device], [create_browser_device],
    [create_mtm_compare], [create_month_device_totals]) and of their
    composition [generate_excel].

    Modelling conventions.
    - A DataFrame is a list of row records plus, for a categorical column,
      the list of its categories; a missing value (NaN) of a text or
      categorical cell is [None].
    - Python assigns into the tables it is given.  A component that does so
      returns, next to its result, the table as it is left behind.
    - groupby follows pandas 1.x/2.x: keys are sorted, and a categorical key
      contributes every category, observed or not (the script's own
      [fillna(0)] and zero-row filter rely on this).
    - Counts are integers.  A float is an exact rational or one of
      +inf, -inf, NaN; rounding and the sign of zero are not modelled.
    - Text is ASCII. *)

From Stdlib Require Import ZArith List String Ascii Bool Lia.
From Stdlib Require Import QArith Qcanon.
From Stdlib Require Import Permutation Sorted OrderedTypeEx.
Import ListNotations.

Local Open Scope string_scope.
Local Open Scope Z_scope.
Local Open Scope list_scope.

(* ================================================================== *)
(** * Floats *)

Inductive Fl : Type :=
| Fin (q : Qc)
| PInf
| NInf
| NaN.

Definition of_Z (z : Z) : Fl := Fin (Q2Qc (inject_Z z)).

Definition Qc0 : Qc := Q2Qc 0.
Definition Qc1 : Qc := Q2Qc 1.
Definition Qc100 : Qc := Q2Qc (inject_Z 100).

Definition fl_neg (a : Fl) : Fl :=
  match a with
  | Fin q => Fin (Qcopp q)
  | PInf => NInf
  | NInf => PInf
  | NaN => NaN
  end.

(** The infinity carrying the sign of [q], NaN for zero. *)
Definition inf_of_sign (q : Qc) : Fl :=
  match Qccompare q Qc0 with
  | Gt => PInf
  | Lt => NInf
  | Eq => NaN
  end.

Definition fl_add (a b : Fl) : Fl :=
  match a, b with
  | NaN, _ | _, NaN => NaN
  | Fin x, Fin y => Fin (Qcplus x y)
  | PInf, NInf | NInf, PInf => NaN
  | PInf, _ | _, PInf => PInf
  | NInf, _ | _, NInf => NInf
  end.

Definition fl_sub (a b : Fl) : Fl := fl_add a (fl_neg b).

Definition fl_mul (a b : Fl) : Fl :=
  match a, b with
  | NaN, _ | _, NaN => NaN
  | Fin x, Fin y => Fin (Qcmult x y)
  | Fin x, PInf | PInf, Fin x => inf_of_sign x
  | Fin x, NInf | NInf, Fin x => fl_neg (inf_of_sign x)
  | PInf, PInf | NInf, NInf => PInf
  | PInf, NInf | NInf, PInf => NaN
  end.

(** Array division of numpy: a zero divisor gives an infinity or NaN, it
    never raises. *)
Definition fl_div (a b : Fl) : Fl :=
  match a, b with
  | NaN, _ | _, NaN => NaN
  | Fin x, Fin y =>
      if Qc_eq_dec y Qc0 then inf_of_sign x else Fin (Qcdiv x y)
  | Fin _, _ => Fin Qc0
  | PInf, Fin y => match Qccompare y Qc0 with Lt => NInf | _ => PInf end
  | NInf, Fin y => match Qccompare y Qc0 with Lt => PInf | _ => NInf end
  | _, _ => NaN
  end.

Definition is_nan (a : Fl) : bool :=
  match a with NaN => true | _ => false end.

Definition fl_eqb (a b : Fl) : bool :=
  match a, b with
  | Fin x, Fin y => if Qc_eq_dec x y then true else false
  | PInf, PInf | NInf, NInf => true
  | _, _ => false
  end.

(** [fillna(0)] on one cell. *)
Definition fillna0 (a : Fl) : Fl :=
  match a with NaN => Fin Qc0 | _ => a end.

(** [x != 0] on one cell (NaN differs from everything). *)
Definition fl_nonzero (a : Fl) : bool := negb (fl_eqb a (Fin Qc0)).

(** Column sum of a groupby: NaN cells are skipped, the empty sum is 0. *)
Definition sum_skipna (l : list Fl) : Fl :=
  fold_left fl_add (filter (fun x => negb (is_nan x)) l) (Fin Qc0).

Definition sumZ (l : list Z) : Z := fold_right Z.add 0 l.

(* ================================================================== *)
(** * Python text operations *)

(** [s.split(sep)] for a one-character separator. *)
Fixpoint split (sep : ascii) (s : string) : list string :=
  match s with
  | EmptyString => [EmptyString]
  | String c r =>
      if Ascii.eqb c sep then EmptyString :: split sep r
      else match split sep r with
           | h :: t => String c h :: t
           | [] => [String c EmptyString]
           end
  end.

(** [s.zfill(2)]: pad on the left with zeros, after a leading sign. *)
Definition zfill2 (s : string) : string :=
  match s with
  | EmptyString => "00"
  | String c EmptyString =>
      if (Ascii.eqb c "+" || Ascii.eqb c "-")%bool
      then String c "0" else String "0" s
  | _ => s
  end.

Definition is_lower (c : ascii) : bool :=
  let n := N_of_ascii c in ((97 <=? n) && (n <=? 122))%N.
Definition is_upper (c : ascii) : bool :=
  let n := N_of_ascii c in ((65 <=? n) && (n <=? 90))%N.
Definition to_upper (c : ascii) : ascii :=
  if is_lower c then ascii_of_N (N_of_ascii c - 32) else c.
Definition to_lower (c : ascii) : ascii :=
  if is_upper c then ascii_of_N (N_of_ascii c + 32) else c.

(** [s.title()]: a letter after a non-letter is upper-cased, a letter after
    a letter is lower-cased. *)
Fixpoint title_from (prev_cased : bool) (s : string) : string :=
  match s with
  | EmptyString => EmptyString
  | String c r =>
      let cased := (is_lower c || is_upper c)%bool in
      String (if prev_cased then to_lower c else to_upper c)
             (title_from cased r)
  end.
Definition title (s : string) : string := title_from false s.

Definition is_digit (c : ascii) : bool :=
  let n := N_of_ascii c in ((48 <=? n) && (n <=? 57))%N.
Definition digit_val (c : ascii) : Z := Z.of_N (N_of_ascii c) - 48.

Definition is_space (c : ascii) : bool :=
  let n := N_of_ascii c in
  (((9 <=? n) && (n <=? 13)) || ((28 <=? n) && (n <=? 32)))%N.

Fixpoint lstrip (s : string) : string :=
  match s with
  | String c r => if is_space c then lstrip r else s
  | EmptyString => s
  end.

Fixpoint all_space (s : string) : bool :=
  match s with
  | EmptyString => true
  | String c r => (is_space c && all_space r)%bool
  end.

(** Digits of an integer literal, read after a digit ([after_digit]) or at
    a place where a digit must follow.  One underscore may separate two
    digits; trailing white space is allowed. *)
Fixpoint int_digits (after_digit : bool) (acc : Z) (s : string) : option Z :=
  match s with
  | EmptyString => if after_digit then Some acc else None
  | String c r =>
      if is_digit c then int_digits true (10 * acc + digit_val c) r
      else if Ascii.eqb c "_" then
             if after_digit then int_digits false acc r else None
      else if (after_digit && all_space s)%bool then Some acc
      else None
  end.

(** [int(s)] on text: [None] stands for ValueError. *)
Definition py_int (s : string) : option Z :=
  match lstrip s with
  | String "-" r => option_map Z.opp (int_digits false 0 r)
  | String "+" r => int_digits false 0 r
  | t => int_digits false 0 t
  end.

(** Decimal digits of a positive number, most significant first. *)
Fixpoint pos_digits (fuel : nat) (n : Z) (acc : string) : string :=
  match fuel with
  | O => acc
  | S f =>
      let acc' := String (ascii_of_N (Z.to_N (48 + n mod 10))) acc in
      if n <? 10 then acc' else pos_digits f (n / 10) acc'
  end.

(** [str(z)] for an integer. *)
Definition str_of_Z (z : Z) : string :=
  if z <? 0 then String "-" (pos_digits (Z.to_nat (- z)) (- z) "")
  else if z =? 0 then "0"
  else pos_digits (Z.to_nat z) z "".

(* ================================================================== *)
(** * Errors *)

Inductive PyError : Type :=
| AttributeError
| ValueError.

Definition result (A : Type) : Type := (PyError + A)%type.

Definition ok {A} (a : A) : result A := inr a.
Definition raise {A} (e : PyError) : result A := inl e.
Definition bind {A B} (m : result A) (k : A -> result B) : result B :=
  match m with
  | inl e => inl e
  | inr a => k a
  end.

Notation "x <- m ;; k" := (bind m (fun x => k))
  (at level 61, m at next level, right associativity).

(** [Series.apply(f)] where [f] may raise: the first failure aborts. *)
Fixpoint apply_rows {A B} (f : A -> result B) (l : list A) : result (list B) :=
  match l with
  | [] => ok []
  | a :: t => b <- f a ;; bs <- apply_rows f t ;; ok (b :: bs)
  end.


(* ================================================================== *)
(** * Input tables *)

Module Raw.

(** A row of the session table as read from the file. *)
Record Session : Type := {
  dim_date : string;
  dim_deviceCategory : string;
  dim_browser : string;
  sessions : Z;
  transactions : Z;
  QTY : Z
}.

(** A month cell of the cart table: a number or text. *)
Inductive Cell : Type :=
| CInt (z : Z)
| CStr (s : string).

(** A row of the cart-add table as read from the file. *)
Record CartAdd : Type := {
  dim_month : Cell;
  dim_year : Z;
  addsToCart : Z
}.

End Raw.

(** A session row after [clean_tables]. *)
Record Session : Type := {
  dim_date : string;
  dim_deviceCategory : string;
  dim_browser : string;
  sessions : Z;
  transactions : Z;
  QTY : Z;
  Month : string;
  Year : Z;
  month_name : option string
}.

(** The session table: its rows and the categories of [month_name]. *)
Record SessionFrame : Type := {
  s_rows : list Session;
  s_categories : list string
}.

(** A cart-add row after [clean_tables] ([dim_year] is renamed [Year]). *)
Record CartAdd : Type := {
  dim_month : string;
  c_Year : Z;
  addsToCart : Z;
  c_month_name : option string
}.

Record CartFrame : Type := {
  c_rows : list CartAdd;
  c_categories : list string
}.

(* ================================================================== *)
(** * Time Normalizer: [clean_tables] *)

(** [pd.to_datetime(month_number, format='%m').strftime('%B')].  The
    directive %m matches 1[0-2], 0[1-9] or [1-9] and the whole text must be
    consumed; anything else raises ValueError. *)
Definition map_month (month_number : string) : result string :=
  if String.eqb month_number "1" || String.eqb month_number "01" then ok "January"
  else if String.eqb month_number "2" || String.eqb month_number "02" then ok "February"
  else if String.eqb month_number "3" || String.eqb month_number "03" then ok "March"
  else if String.eqb month_number "4" || String.eqb month_number "04" then ok "April"
  else if String.eqb month_number "5" || String.eqb month_number "05" then ok "May"
  else if String.eqb month_number "6" || String.eqb month_number "06" then ok "June"
  else if String.eqb month_number "7" || String.eqb month_number "07" then ok "July"
  else if String.eqb month_number "8" || String.eqb month_number "08" then ok "August"
  else if String.eqb month_number "9" || String.eqb month_number "09" then ok "September"
  else if String.eqb month_number "10" then ok "October"
  else if String.eqb month_number "11" then ok "November"
  else if String.eqb month_number "12" then ok "December"
  else raise ValueError.

Definition mem (x : string) (l : list string) : bool :=
  existsb (String.eqb x) l.

(** [Series.unique()]: the distinct values in order of first appearance. *)
Fixpoint unique_from (seen : list string) (l : list string) : list string :=
  match l with
  | [] => []
  | x :: t => if mem x seen then unique_from seen t
              else x :: unique_from (x :: seen) t
  end.
Definition unique (l : list string) : list string := unique_from [] l.

(** One cell of [pd.Categorical(values, categories)]: a value outside the
    categories becomes NaN. *)
Definition categorical (categories : list string) (v : option string)
  : option string :=
  match v with
  | Some x => if mem x categories then Some x else None
  | None => None
  end.

(** [.str[2]] then [x.zfill(2)], ['20' + ...] and [astype(int)] for one
    date: a date with fewer than three parts has a NaN year, on which
    [zfill] raises AttributeError. *)
Definition year_text (date : string) : result string :=
  match nth_error (split "/" date) 2 with
  | Some y => ok ("20" ++ zfill2 y)%string
  | None => raise AttributeError
  end.

Definition year_int (text : string) : result Z :=
  match py_int text with
  | Some y => ok y
  | None => raise ValueError
  end.

(** [.str[0]] of the split date; a split is never empty. *)
Definition month_text (date : string) : string :=
  hd "" (split "/" date).

(** [astype(str)] on a month cell. *)
Definition astype_str (c : Raw.Cell) : string :=
  match c with
  | Raw.CInt z => str_of_Z z
  | Raw.CStr s => s
  end.

Definition mk_session (month_order : list string) (r : Raw.Session)
    (y : Z) (name : string) : Session :=
  {| dim_date := Raw.dim_date r;
     dim_deviceCategory := title (Raw.dim_deviceCategory r);
     dim_browser := Raw.dim_browser r;
     sessions := Raw.sessions r;
     transactions := Raw.transactions r;
     QTY := Raw.QTY r;
     Month := month_text (Raw.dim_date r);
     Year := y;
     month_name := categorical month_order (Some name) |}.

Definition mk_cart (month_order : list string) (c : Raw.CartAdd)
    (name : string) : CartAdd :=
  {| dim_month := astype_str (Raw.dim_month c);
     c_Year := Raw.dim_year c;
     addsToCart := Raw.addsToCart c;
     c_month_name := categorical month_order (Some name) |}.

Fixpoint zip3_with {A B C D} (f : A -> B -> C -> D)
    (la : list A) (lb : list B) (lc : list C) : list D :=
  match la, lb, lc with
  | a :: ta, b :: tb, c :: tc => f a b c :: zip3_with f ta tb tc
  | _, _, _ => []
  end.

Fixpoint zip_with {A B C} (f : A -> B -> C)
    (la : list A) (lb : list B) : list C :=
  match la, lb with
  | a :: ta, b :: tb => f a b :: zip_with f ta tb
  | _, _ => []
  end.

(** The two tables are assigned into and handed back: the result is the
    state in which the caller's tables are left.  The column statements run
    in the order of the script, each over the whole column. *)
Definition clean_tables (session_cts : list Raw.Session)
    (cart_adds : list Raw.CartAdd) : result (SessionFrame * CartFrame) :=
  texts <- apply_rows (fun r => year_text (Raw.dim_date r)) session_cts ;;
  years <- apply_rows year_int texts ;;
  names <- apply_rows (fun r => map_month (month_text (Raw.dim_date r)))
                      session_cts ;;
  cart_names <- apply_rows (fun c => map_month (astype_str (Raw.dim_month c)))
                           cart_adds ;;
  let month_order := unique names in
  ok ({| s_rows := zip3_with (mk_session month_order) session_cts years names;
         s_categories := month_order |},
      {| c_rows := zip_with (mk_cart month_order) cart_adds cart_names;
         c_categories := month_order |}).

(* ================================================================== *)
(** * Grouping, sorting and selection primitives *)

Definition opt_eqb (a b : option string) : bool :=
  match a, b with
  | Some x, Some y => String.eqb x y
  | None, None => true
  | _, _ => false
  end.

(** Distinct values of a categorical column, in order of appearance. *)
Fixpoint unique_opt_from (seen l : list (option string))
  : list (option string) :=
  match l with
  | [] => []
  | x :: t => if existsb (opt_eqb x) seen then unique_opt_from seen t
              else x :: unique_opt_from (x :: seen) t
  end.
Definition unique_opt (l : list (option string)) : list (option string) :=
  unique_opt_from [] l.

(** [l[-n:]] *)
Definition lastn {A} (n : nat) (l : list A) : list A :=
  skipn (List.length l - n) l.

(** The sorted distinct keys a groupby on a text column produces. *)
Fixpoint insert_key (k : string) (l : list string) : list string :=
  match l with
  | [] => [k]
  | h :: t =>
      match String.compare k h with
      | Lt => k :: l
      | Eq => l
      | Gt => h :: insert_key k t
      end
  end.
Definition group_keys (l : list string) : list string :=
  fold_right insert_key [] l.

(** A stable sort: an element is put before the first later element that
    is not smaller. *)
Fixpoint insert_by {A} (le : A -> A -> bool) (x : A) (l : list A) : list A :=
  match l with
  | [] => [x]
  | y :: t => if le x y then x :: l else y :: insert_by le x t
  end.
Definition stable_sort {A} (le : A -> A -> bool) (l : list A) : list A :=
  fold_right (insert_by le) [] l.

(** The code of a value in a list of categories. *)
Fixpoint index_of (x : string) (l : list string) : option nat :=
  match l with
  | [] => None
  | h :: t => if String.eqb x h then Some O
              else option_map S (index_of x t)
  end.

Definition code (categories : list string) (v : option string) : option nat :=
  match v with
  | Some x => index_of x categories
  | None => None
  end.

(** Order of codes, NaN last. *)
Definition code_leb (a b : option nat) : bool :=
  match a, b with
  | Some x, Some y => (x <=? y)%nat
  | Some _, None => true
  | None, Some _ => false
  | None, None => true
  end.
Definition code_eqb (a b : option nat) : bool :=
  (code_leb a b && code_leb b a)%bool.

(** [df.take(indexer)] *)
Definition take {A} (l : list A) (indexer : list nat) : list A :=
  flat_map (fun i => match nth_error l i with
                     | Some a => [a]
                     | None => []
                     end) indexer.

(** [nargsort(items, kind, ascending=False)] of pandas: the values and
    their positions are reversed, sorted by numpy's [argsort] and the
    outcome is reversed again.  [argsort] is numpy's
    [ndarray.argsort(kind='quicksort')]. *)
Definition nargsort_desc (argsort : list Z -> list nat) (items : list Z)
  : list nat :=
  let n := List.length items in
  rev (map (fun j => (n - 1 - j)%nat) (argsort (rev items))).

(** What numpy promises of [argsort] whatever the kind: a permutation of
    the positions that puts the values in ascending order. *)
Definition argsort_spec (argsort : list Z -> list nat) : Prop :=
  forall l,
    Permutation (argsort l) (seq 0 (List.length l)) /\
    StronglySorted Z.le (map (fun i => nth i l 0) (argsort l)).

(** Two instances: insertion of the positions, before ([Z.leb]) or after
    ([Z.ltb]) the positions of equal value already placed. *)
Definition insertion_argsort (cmp : Z -> Z -> bool) (l : list Z) : list nat :=
  stable_sort (fun i j => cmp (nth i l 0) (nth j l 0)) (seq 0 (List.length l)).

(* ================================================================== *)
(** * Aggregate rows *)

(** A row of a grouped table: the group key, the three sums of
    [aggregation_functions] and the derived ECR. *)
Record Agg (K : Type) : Type := {
  key : K;
  agg_sessions : Z;
  agg_transactions : Z;
  agg_QTY : Z;
  ECR : Fl
}.
Arguments key {K} _.
Arguments agg_sessions {K} _.
Arguments agg_transactions {K} _.
Arguments agg_QTY {K} _.
Arguments ECR {K} _.

(** [.agg(aggregation_functions)] on one group, then
    [grouped['ECR'] = grouped['transactions'] / grouped['sessions']]. *)
Definition aggregate {K} (k : K) (group : list Session) : Agg K :=
  let s := sumZ (map sessions group) in
  let t := sumZ (map transactions group) in
  {| key := k;
     agg_sessions := s;
     agg_transactions := t;
     agg_QTY := sumZ (map QTY group);
     ECR := fl_div (of_Z t) (of_Z s) |}.

Definition month_is (m : string) (r : Session) : bool :=
  opt_eqb (month_name r) (Some m).

(* ================================================================== *)
(** * Device/Category Aggregator: [create_month_device] *)

Definition month_order : list string :=
  ["July"; "August"; "September"; "October"; "November";
   "December"; "January"; "February"; "March";
   "April"; "May"; "June"].

(** The grouped table: rows keyed by (month_name, dim_deviceCategory) and
    the categories of the month level. *)
Record MonthDeviceFrame : Type := {
  md_rows : list (Agg (string * string));
  md_categories : list string
}.

Definition set_month_categories (categories : list string)
    (md : SessionFrame) : SessionFrame :=
  {| s_rows :=
       map (fun r =>
              {| dim_date := dim_date r;
                 dim_deviceCategory := dim_deviceCategory r;
                 dim_browser := dim_browser r;
                 sessions := sessions r;
                 transactions := transactions r;
                 QTY := QTY r;
                 Month := Month r;
                 Year := Year r;
                 month_name := categorical categories (month_name r) |})
           (s_rows md);
     s_categories := categories |}.

(** [md.groupby(['month_name', 'dim_deviceCategory']).agg(...)] and the
    ECR column: one row per category of the month and per device of the
    table, months first. *)
Definition groupby_month_device (md : SessionFrame)
  : list (Agg (string * string)) :=
  let devices := group_keys (map dim_deviceCategory (s_rows md)) in
  flat_map (fun m =>
    map (fun d =>
           aggregate (m, d)
             (filter (fun r => month_is m r
                               && String.eqb (dim_deviceCategory r) d)
                     (s_rows md)))
        devices)
    (s_categories md).

(** [md['month_name'] = pd.Categorical(...)] assigns into the caller's
    table: the second component is that table afterwards. *)
Definition create_month_device (md : SessionFrame)
  : MonthDeviceFrame * SessionFrame :=
  let md := set_month_categories month_order md in
  let grouped_md := groupby_month_device md in
  ({| md_rows := grouped_md; md_categories := s_categories md |}, md).

(* ================================================================== *)
(** * Browser Aggregator: [create_browser_device] *)

Definition create_browser_device (md : SessionFrame)
  : list (Agg string) * SessionFrame :=
  let grouped_md :=
    map (fun b =>
           aggregate b (filter (fun r => String.eqb (dim_browser r) b)
                               (s_rows md)))
        (group_keys (map dim_browser (s_rows md))) in
  (grouped_md, md).

(** [browser.sort_values('sessions', ascending=False)[:20]] *)
Definition top_browsers (argsort : list Z -> list nat)
    (browser : list (Agg string)) : list (Agg string) :=
  firstn 20 (take browser (nargsort_desc argsort (map agg_sessions browser))).

(* ================================================================== *)
(** * Trend Comparator: [filter_last_months], [create_mtm_compare] *)

(** Row order of [sort_values(by=['Year', 'month_name'])]: by year, then
    by the code of the month, NaN last.  A sort on several columns is
    stable. *)
Definition year_month_leb (categories : list string) (a b : Session) : bool :=
  (Year a <? Year b)
  || ((Year a =? Year b)
      && code_leb (code categories (month_name a))
                  (code categories (month_name b))).

(** The local [df] is a sorted copy; the caller's table is not touched. *)
Definition filter_last_months (df : SessionFrame) : SessionFrame :=
  let df_rows := stable_sort (year_month_leb (s_categories df)) (s_rows df) in
  let last_months := lastn 3 (unique_opt (map month_name df_rows)) in
  let filtered_df :=
    filter (fun r => existsb (opt_eqb (month_name r)) last_months) df_rows in
  {| s_rows := filtered_df; s_categories := s_categories df |}.

(** A row of the grouped table after the merge with the cart adds. *)
Record Merged : Type := {
  m_month_name : string;
  m_sessions : Z;
  m_transactions : Z;
  m_QTY : Z;
  m_ECR : Fl;
  m_addsToCart : Z
}.

(** [Series.shift(1)] *)
Definition shift (l : list Fl) : list Fl :=
  match l with
  | [] => []
  | _ => NaN :: removelast l
  end.

(** [Series.diff()] *)
Definition diff (l : list Fl) : list Fl := zip_with fl_sub l (shift l).

(** Forward fill, the default [fill_method='pad'] of [pct_change]. *)
Fixpoint ffill_from (last : Fl) (l : list Fl) : list Fl :=
  match l with
  | [] => []
  | x :: t => let y := if is_nan x then last else x in y :: ffill_from y t
  end.
Definition ffill (l : list Fl) : list Fl := ffill_from NaN l.

(** [Series.pct_change()]: [data / data.shift(1) - 1] on the filled data. *)
Definition pct_change (l : list Fl) : list Fl :=
  let data := ffill l in
  zip_with (fun v p => fl_sub (fl_div v p) (Fin Qc1)) data (shift data).

(** The transposed report: month names as column labels, one labelled
    row per metric. *)
Record Matrix : Type := {
  mx_columns : list string;
  mx_rows : list (string * list Fl)
}.

(** The three rows a metric contributes: the value, [col_abs_change] and
    [col_pct_change]. *)
Definition metric_rows (col : string) (values : list Fl)
  : list (string * list Fl) :=
  [ (col, values);
    ((col ++ "_abs_change")%string, diff values);
    ((col ++ "_pct_change")%string,
     map (fun x => fl_mul x (Fin Qc100)) (pct_change values)) ].

(** [fillna(0, inplace=True)] acts on the freshly grouped table. *)
Definition fill_row (g : Agg string) : Agg string :=
  {| key := key g;
     agg_sessions := agg_sessions g;
     agg_transactions := agg_transactions g;
     agg_QTY := agg_QTY g;
     ECR := fillna0 (ECR g) |}.

(** [(last_three_grouped != 0).all(axis=1)] on one row. *)
Definition all_nonzero (g : Agg string) : bool :=
  negb (agg_sessions g =? 0) && negb (agg_transactions g =? 0)
  && negb (agg_QTY g =? 0) && fl_nonzero (ECR g).

(** The grouped, filled and filtered table of the selected months. *)
Definition last_three_grouped (session_counts : SessionFrame)
  : list (Agg string) :=
  let last_three := filter_last_months session_counts in
  let grouped :=
    map (fun m => aggregate m (filter (month_is m) (s_rows last_three)))
        (s_categories last_three) in
  filter all_nonzero (map fill_row grouped).

(** [merge(adds[['month_name', 'addsToCart']], on=['month_name'],
    how='inner')]: the left order is kept; a left row is paired with each
    cart row of the same month, in cart order. *)
Definition merge (left : list (Agg string)) (adds : CartFrame)
  : list Merged :=
  flat_map (fun g =>
    map (fun c =>
           {| m_month_name := key g;
              m_sessions := agg_sessions g;
              m_transactions := agg_transactions g;
              m_QTY := agg_QTY g;
              m_ECR := ECR g;
              m_addsToCart := addsToCart c |})
        (filter (fun c => opt_eqb (c_month_name c) (Some (key g)))
                (c_rows adds)))
    left.

(** The comparison table before the columns are laid out. *)
Definition mtm_merged (session_counts : SessionFrame) (adds : CartFrame)
  : list Merged :=
  merge (last_three_grouped session_counts) adds.

Definition create_mtm_compare (session_counts : SessionFrame)
    (adds : CartFrame) : Matrix * (SessionFrame * CartFrame) :=
  let merged := mtm_merged session_counts adds in
  ({| mx_columns := map m_month_name merged;
      mx_rows :=
        metric_rows "sessions" (map (fun r => of_Z (m_sessions r)) merged)
        ++ metric_rows "addsToCart"
             (map (fun r => of_Z (m_addsToCart r)) merged)
        ++ metric_rows "transactions"
             (map (fun r => of_Z (m_transactions r)) merged)
        ++ metric_rows "QTY" (map (fun r => of_Z (m_QTY r)) merged)
        ++ metric_rows "ECR" (map m_ECR merged) |},
   (session_counts, adds)).

(** The row of a report with a given label. *)
Fixpoint mx_row (label : string) (rows : list (string * list Fl))
  : option (list Fl) :=
  match rows with
  | [] => None
  | (n, v) :: t => if String.eqb n label then Some v else mx_row label t
  end.

(* ================================================================== *)
(** * Totals Augmenter: [create_month_device_totals] *)

Definition order : list string := ["Desktop"; "Mobile"; "Tablet"; "Total"].

Definition month_of {D} (r : Agg (string * D)) : string := fst (key r).
Definition device_of {D} (r : Agg (string * D)) : D := snd (key r).

(** [month_device.groupby('month_name').sum()] for one month, labelled
    'Total'. *)
Definition total_row (rows : list (Agg (string * string))) (m : string)
  : Agg (string * string) :=
  let g := filter (fun r => String.eqb (month_of r) m) rows in
  {| key := (m, "Total");
     agg_sessions := sumZ (map agg_sessions g);
     agg_transactions := sumZ (map agg_transactions g);
     agg_QTY := sumZ (map agg_QTY g);
     ECR := sum_skipna (map ECR g) |}.

(** The device column made categorical over [order]. *)
Definition with_device_category (r : Agg (string * string))
  : Agg (string * option string) :=
  {| key := (month_of r, categorical order (Some (device_of r)));
     agg_sessions := agg_sessions r;
     agg_transactions := agg_transactions r;
     agg_QTY := agg_QTY r;
     ECR := ECR r |}.

(** Row order of [sort_values(by=['month_name', 'dim_deviceCategory'])]. *)
Definition month_device_leb (categories : list string)
    (a b : Agg (string * option string)) : bool :=
  let ma := index_of (month_of a) categories in
  let mb := index_of (month_of b) categories in
  (code_leb ma mb && negb (code_leb mb ma))
  || (code_eqb ma mb
      && code_leb (code order (device_of a)) (code order (device_of b))).

(** [reset_index] and every later step build new tables. *)
Definition create_month_device_totals (month_device : MonthDeviceFrame)
  : list (Agg (string * option string)) * MonthDeviceFrame :=
  let totals :=
    map (total_row (md_rows month_device)) (md_categories month_device) in
  let month_device_with_totals :=
    map with_device_category (md_rows month_device ++ totals) in
  (stable_sort (month_device_leb (md_categories month_device))
               month_device_with_totals,
   month_device).

(* ================================================================== *)
(** * The pipeline: [generate_excel] *)

(** The four tables handed to the spreadsheet writer. *)
Record Reports : Type := {
  sheet_month_device : MonthDeviceFrame;
  sheet_mtm_compare : Matrix;
  sheet_browser : list (Agg string);
  sheet_totals : list (Agg (string * option string))
}.

(** The tables read from the two files are threaded through the calls in
    the order of the script, each call seeing what the previous ones left
    in them. *)
Definition generate_excel (argsort : list Z -> list nat)
    (session_counts : list Raw.Session) (adds_to_cart : list Raw.CartAdd)
  : result Reports :=
  cleaned <- clean_tables session_counts adds_to_cart ;;
  let '(sc, adds) := cleaned in
  let '(month_device_agg, sc) := create_month_device sc in
  let '(browser, sc) := create_browser_device sc in
  let browser := top_browsers argsort browser in
  let '(mtm_compare, (sc, adds)) := create_mtm_compare sc adds in
  let '(month_device_with_totals, month_device_agg) :=
    create_month_device_totals month_device_agg in
  ok {| sheet_month_device := month_device_agg;
        sheet_mtm_compare := mtm_compare;
        sheet_browser := browser;
        sheet_totals := month_device_with_totals |}.

(* ================================================================== *)
(** * Sample tables *)

Definition raw_session (d dev br : string) (s t q : Z) : Raw.Session :=
  {| Raw.dim_date := d; Raw.dim_deviceCategory := dev; Raw.dim_browser := br;
     Raw.sessions := s; Raw.transactions := t; Raw.QTY := q |}.

Definition raw_cart (m : Raw.Cell) (y a : Z) : Raw.CartAdd :=
  {| Raw.dim_month := m; Raw.dim_year := y; Raw.addsToCart := a |}.

(** The scenario of the specification, with a third row that has
    transactions but no session. *)
Definition sample_sessions : list Raw.Session :=
  [ raw_session "7/1/12" "desktop" "Chrome" 100 10 5;
    raw_session "8/1/12" "desktop" "Safari" 150 30 10;
    raw_session "8/2/12" "mobile" "Opera" 0 3 1 ].

Definition sample_adds : list Raw.CartAdd :=
  [ raw_cart (Raw.CInt 7) 2012 50;
    raw_cart (Raw.CInt 8) 2012 80;
    raw_cart (Raw.CStr "09") 2012 70 ].

(** June then July of one year: the first-seen order is June, July. *)
Definition summer_sessions : list Raw.Session :=
  [ raw_session "6/30/13" "desktop" "Chrome" 40 4 4;
    raw_session "7/1/13" "desktop" "Chrome" 60 6 6 ].


(** One month, two devices with conversion rates 1/10 and 3/10. *)
Definition july_sessions : list Raw.Session :=
  [ raw_session "7/1/12" "desktop" "Chrome" 100 10 5;
    raw_session "7/2/12" "mobile" "Safari" 100 30 9 ].

(** The cleaned table of a raw one (the empty table on failure). *)
Definition cleaned_sessions (raw : list Raw.Session) : SessionFrame :=
  match clean_tables raw [] with
  | inr (sc, _) => sc
  | inl _ => {| s_rows := []; s_categories := [] |}
  end.

(** The cleaned cart table of a pair of raw tables. *)
Definition cleaned_adds (raw : list Raw.Session) (cart : list Raw.CartAdd)
  : CartFrame :=
  match clean_tables raw cart with
  | inr (_, adds) => adds
  | inl _ => {| c_rows := []; c_categories := [] |}
  end.

Definition sample_frame : SessionFrame := cleaned_sessions sample_sessions.
Definition sample_cart : CartFrame := cleaned_adds sample_sessions sample_adds.
Definition summer_frame : SessionFrame := cleaned_sessions summer_sessions.
Definition july_frame : SessionFrame := cleaned_sessions july_sessions.

(* ================================================================== *)
(** * Predicates of the statements *)

(** The value of ECR the code computes from the two sums. *)
Definition ratio (t s : Z) : Fl :=
  if s =? 0 then
    match t ?= 0 with
    | Gt => PInf
    | Lt => NInf
    | Eq => NaN
    end
  else Fin (Qcdiv (Q2Qc (inject_Z t)) (Q2Qc (inject_Z s))).



(** Order of Python text: by character codes. *)
Definition str_lt (a b : string) : Prop := String.compare a b = Lt.

(** [x] stands before [y] in [l]. *)
Definition before {A} (l : list A) (x y : A) : Prop :=
  exists l1 l2 l3, l = l1 ++ x :: l2 ++ y :: l3.

(** Order of the rows of the grouped table: by the place of the month in
    [categories], then by device text. *)
Definition month_device_lt (categories : list string)
    (a b : string * string) : Prop :=
  before categories (fst a) (fst b)
  \/ (fst a = fst b /\ str_lt (snd a) (snd b)).




Definition finite (x : Fl) : Prop := exists q, x = Fin q.

Definition no_reports : Reports :=
  {| sheet_month_device := {| md_rows := []; md_categories := [] |};
     sheet_mtm_compare := {| mx_columns := []; mx_rows := [] |};
     sheet_browser := [];
     sheet_totals := [] |}.

(** The reports of the sample tables. *)
Definition sample_reports : Reports :=
  match generate_excel (insertion_argsort Z.leb) sample_sessions sample_adds
  with
  | inr r => r
  | inl _ => no_reports
  end.





Fixpoint no_slash (s : string) : bool :=
  match s with
  | EmptyString => true
  | String c r => negb (Ascii.eqb c "/") && no_slash r
  end.




(** The columns of a session row other than [month_name]. *)
Definition other_columns (r : Session)
  : string * string * string * Z * Z * Z * string * Z :=
  (dim_date r, dim_deviceCategory r, dim_browser r,
   sessions r, transactions r, QTY r, Month r, Year r).

(** Lower-casing of ASCII text. *)
Fixpoint lower (s : string) : string :=
  match s with
  | EmptyString => EmptyString
  | String c r => String (to_lower c) (lower r)
  end.

Definition one_digit_year : Raw.Session :=
  raw_session "3/9/7" "tablet" "Safari" 2 1 1.

(** The distinct months of a session table. *)
Definition months_of (df : SessionFrame) : list (option string) :=
  unique_opt (map month_name (s_rows df)).

(** The row labels of the comparison report, in the order of the column
    list of [create_mtm_compare]. *)
Definition mtm_labels : list string :=
  ["sessions"; "sessions_abs_change"; "sessions_pct_change";
   "addsToCart"; "addsToCart_abs_change"; "addsToCart_pct_change";
   "transactions"; "transactions_abs_change"; "transactions_pct_change";
   "QTY"; "QTY_abs_change"; "QTY_pct_change";
   "ECR"; "ECR_abs_change"; "ECR_pct_change"].

(** [sep.join(parts)] *)
Fixpoint join (sep : ascii) (parts : list string) : string :=
  match parts with
  | [] => EmptyString
  | [p] => p
  | p :: rest => (p ++ String sep (join sep rest))%string
  end.

(** The number of occurrences of a character. *)
Fixpoint count_char (c : ascii) (s : string) : nat :=
  match s with
  | EmptyString => O
  | String x r => ((if Ascii.eqb x c then 1 else 0) + count_char c r)%nat
  end.

(** A device category outside the fixed list of the Totals Augmenter. *)
Definition tv_sessions : list Raw.Session :=
  [ raw_session "7/4/12" "smart tv" "Chrome" 8 2 2 ].
Definition tv_frame : SessionFrame := cleaned_sessions tv_sessions.

(* ================================================================== *)
(** * Arithmetic of the float model *)

Lemma Q2Qc_inject_Z_zero (z : Z) : Q2Qc (inject_Z z) = Qc0 <-> z = 0.
Proof.
  unfold Qc0. rewrite Q2Qc_eq_iff. unfold Qeq; simpl. lia.
Qed.

Lemma Qccompare_inject_Z (z : Z) :
  Qccompare (Q2Qc (inject_Z z)) Qc0 = (z ?= 0).
Proof.
  unfold Qccompare.
  change (this (Q2Qc (inject_Z z))) with (Qred (inject_Z z)).
  change (this Qc0) with (Qred 0).
  rewrite <- Qred_compare.
  unfold Qcompare; simpl. now rewrite Z.mul_1_r.
Qed.

(** Two floats are equal when their rationals are. *)
Lemma Fin_eq (x y : Fl) :
  match x, y with
  | Fin p, Fin q => Qeq_bool (this p) (this q) = true
  | _, _ => False
  end -> x = y.
Proof.
  destruct x as [p | | |], y as [q | | |]; try contradiction.
  intros H. f_equal. apply Qc_is_canon. now apply Qeq_bool_iff.
Qed.

Lemma fl_div_of_Z (t s : Z) : fl_div (of_Z t) (of_Z s) = ratio t s.
Proof.
  unfold fl_div, of_Z, ratio.
  destruct (Qc_eq_dec (Q2Qc (inject_Z s)) Qc0) as [E | E].
  - apply Q2Qc_inject_Z_zero in E. subst s. simpl.
    unfold inf_of_sign. rewrite Qccompare_inject_Z.
    now destruct (t ?= 0).
  - destruct (Z.eqb_spec s 0) as [Hs | Hs]; [| reflexivity].
    exfalso. apply E. now apply Q2Qc_inject_Z_zero.
Qed.


Lemma ratio_nonzero (t s : Z) :
  s <> 0 -> ratio t s = Fin (Qcdiv (Q2Qc (inject_Z t)) (Q2Qc (inject_Z s))).
Proof.
  intros Hs. unfold ratio. now destruct (Z.eqb_spec s 0).
Qed.


(* ================================================================== *)
(** * ECR of the aggregate rows *)


Lemma in_last_three_grouped (md : SessionFrame) (g : Agg string) :
  In g (last_three_grouped md) ->
  exists group, g = fill_row (aggregate (key g) group) /\ all_nonzero g = true.
Proof.
  unfold last_three_grouped. intros H.
  apply filter_In in H. destruct H as [H Hnz].
  apply in_map_iff in H. destruct H as [g0 [<- H]].
  apply in_map_iff in H. destruct H as [m [<- _]].
  eexists. split; [reflexivity | exact Hnz].
Qed.

Lemma all_nonzero_sessions (g : Agg string) :
  all_nonzero g = true -> agg_sessions g <> 0.
Proof.
  unfold all_nonzero. intros H.
  repeat (apply andb_prop in H; destruct H as [H ?]).
  apply negb_true_iff in H. now apply Z.eqb_neq.
Qed.

Lemma last_three_grouped_ratio (md : SessionFrame) (g : Agg string) :
  In g (last_three_grouped md) ->
  agg_sessions g <> 0
  /\ ECR g = ratio (agg_transactions g) (agg_sessions g).
Proof.
  intros H.
  destruct (in_last_three_grouped md g H) as [group [E Hnz]].
  pose proof (all_nonzero_sessions g Hnz) as Hs.
  split; [exact Hs |].
  rewrite E in Hs |- *.
  unfold fill_row, aggregate in Hs |- *.
  cbn [ECR agg_sessions agg_transactions] in Hs |- *.
  rewrite fl_div_of_Z, (ratio_nonzero _ _ Hs). reflexivity.
Qed.




(* ================================================================== *)
(** * Orders and sorted lists *)

Lemma str_lt_trans (a b c : string) : str_lt a b -> str_lt b c -> str_lt a c.
Proof.
  unfold str_lt. intros H1 H2.
  apply String_as_OT.cmp_lt in H1. apply String_as_OT.cmp_lt in H2.
  apply String_as_OT.cmp_lt. eapply String_as_OT.lt_trans; eassumption.
Qed.

Lemma str_lt_irrefl (a : string) : ~ str_lt a a.
Proof.
  unfold str_lt. intros H.
  assert (E : String.compare a a = Eq) by now apply String_as_OT.cmp_eq.
  congruence.
Qed.

Lemma compare_Gt_lt (a b : string) : String.compare a b = Gt -> str_lt b a.
Proof.
  unfold str_lt. intros H. rewrite String_as_OT.cmp_antisym.
  unfold String_as_OT.cmp. now rewrite H.
Qed.

Lemma before_irrefl {A} (l : list A) (x : A) : NoDup l -> ~ before l x x.
Proof.
  intros N [l1 [l2 [l3 E]]]. subst l.
  apply NoDup_remove_2 in N. apply N.
  apply in_or_app. right. apply in_or_app. right. now left.
Qed.

Lemma before_cons {A} (a : A) (l : list A) (x y : A) :
  before l x y -> before (a :: l) x y.
Proof.
  intros [l1 [l2 [l3 E]]]. exists (a :: l1), l2, l3. now rewrite E.
Qed.

Lemma before_head {A} (x y : A) (l : list A) : In y l -> before (x :: l) x y.
Proof.
  intros H. apply in_split in H. destruct H as [l2 [l3 E]].
  exists [], l2, l3. now rewrite E.
Qed.

Lemma StronglySorted_app {A} (R : A -> A -> Prop) (l1 l2 : list A) :
  StronglySorted R l1 -> StronglySorted R l2 ->
  (forall x y, In x l1 -> In y l2 -> R x y) ->
  StronglySorted R (l1 ++ l2).
Proof.
  induction l1 as [| a l1 IH]; intros S1 S2 H; simpl; [exact S2 |].
  apply StronglySorted_inv in S1. destruct S1 as [S1 F1].
  constructor.
  - apply IH; [exact S1 | exact S2 |].
    intros x y Hx Hy. apply H; [now right | exact Hy].
  - apply Forall_app. split; [exact F1 |].
    apply Forall_forall. intros y Hy. apply H; [now left | exact Hy].
Qed.

Lemma StronglySorted_map {A B} (R : A -> A -> Prop) (S : B -> B -> Prop)
    (f : A -> B) (l : list A) :
  (forall x y, R x y -> S (f x) (f y)) ->
  StronglySorted R l -> StronglySorted S (map f l).
Proof.
  intros H. induction 1 as [| a l SS IH F]; simpl; constructor.
  - exact IH.
  - apply Forall_map. eapply Forall_impl; [| exact F]. intros; now apply H.
Qed.

Lemma StronglySorted_weaken {A} (R S : A -> A -> Prop) (l : list A) :
  (forall x y, R x y -> S x y) -> StronglySorted R l -> StronglySorted S l.
Proof.
  intros H SS. rewrite <- (map_id l). now apply StronglySorted_map with (R := R).
Qed.

Lemma StronglySorted_rev {A} (R : A -> A -> Prop) (l : list A) :
  StronglySorted R l -> StronglySorted (fun x y => R y x) (rev l).
Proof.
  induction 1 as [| a l SS IH F]; simpl; [constructor |].
  apply StronglySorted_app.
  - exact IH.
  - repeat constructor.
  - intros x y Hx [<- | []]. apply in_rev in Hx.
    rewrite Forall_forall in F. now apply F.
Qed.

Lemma StronglySorted_NoDup {A} (R : A -> A -> Prop) (l : list A) :
  (forall x, ~ R x x) -> StronglySorted R l -> NoDup l.
Proof.
  intros Irr. induction 1 as [| a l SS IH F]; constructor; [| exact IH].
  intros Hin. rewrite Forall_forall in F. exact (Irr a (F a Hin)).
Qed.



(* ================================================================== *)
(** * Group keys *)

Lemma insert_key_In (k x : string) (l : list string) :
  In x (insert_key k l) <-> x = k \/ In x l.
Proof.
  induction l as [| h t IH]; simpl.
  - intuition.
  - destruct (String.compare k h) eqn:E; simpl.
    + apply String_as_OT.cmp_eq in E. subst h. intuition.
    + intuition.
    + rewrite IH. intuition.
Qed.

Lemma group_keys_In (x : string) (l : list string) :
  In x (group_keys l) <-> In x l.
Proof.
  induction l as [| h t IH]; simpl; [tauto |].
  rewrite insert_key_In, IH. intuition.
Qed.

Lemma insert_key_sorted (k : string) (l : list string) :
  StronglySorted str_lt l -> StronglySorted str_lt (insert_key k l).
Proof.
  induction 1 as [| h t SS IH F]; simpl.
  - repeat constructor.
  - destruct (String.compare k h) eqn:E.
    + now constructor.
    + constructor; [now constructor |].
      constructor; [exact E |].
      eapply Forall_impl; [| exact F].
      intros y Hy. eapply str_lt_trans; [exact E | exact Hy].
    + constructor; [exact IH |].
      apply Forall_forall. intros y Hy.
      apply insert_key_In in Hy. destruct Hy as [-> | Hy].
      * now apply compare_Gt_lt.
      * rewrite Forall_forall in F. now apply F.
Qed.

Lemma group_keys_sorted (l : list string) :
  StronglySorted str_lt (group_keys l).
Proof.
  induction l as [| h t IH]; simpl; [constructor |].
  now apply insert_key_sorted.
Qed.

Lemma mem_In (x : string) (l : list string) : mem x l = true <-> In x l.
Proof.
  unfold mem. rewrite existsb_exists. split.
  - intros [y [Hy E]]. apply String.eqb_eq in E. now subst.
  - intros H. exists x. split; [exact H | apply String.eqb_refl].
Qed.

Lemma categorical_Some (cats : list string) (v : option string) (m : string) :
  categorical cats v = Some m <-> v = Some m /\ In m cats.
Proof.
  unfold categorical. destruct v as [x |].
  - destruct (mem x cats) eqn:E.
    + apply mem_In in E. split.
      * intros [= ->]. now split.
      * intros [[= ->] _]. reflexivity.
    + split; [discriminate |].
      intros [[= ->] H]. apply mem_In in H. congruence.
  - split; [discriminate | intros [H _]; discriminate].
Qed.

Lemma opt_eqb_eq (a b : option string) : opt_eqb a b = true <-> a = b.
Proof.
  destruct a as [x |], b as [y |]; simpl; try (split; congruence).
  rewrite String.eqb_eq. split; congruence.
Qed.

(* ================================================================== *)
(** * Rows of the Device/Category Aggregator *)

Lemma groupby_month_device_keys (md : SessionFrame) :
  map key (groupby_month_device md)
  = list_prod (s_categories md)
              (group_keys (map dim_deviceCategory (s_rows md))).
Proof.
  unfold groupby_month_device.
  induction (s_categories md) as [| m cats IH]; simpl; [reflexivity |].
  rewrite map_app, IH. f_equal.
  rewrite map_map. apply map_ext. reflexivity.
Qed.

Lemma list_prod_sorted (devices : list string) :
  StronglySorted str_lt devices ->
  forall pre cats,
    StronglySorted (month_device_lt (pre ++ cats)) (list_prod cats devices).
Proof.
  intros SD pre cats. revert pre.
  induction cats as [| m cats IH]; intros pre; simpl; [constructor |].
  apply StronglySorted_app.
  - apply StronglySorted_map with (R := str_lt); [| exact SD].
    intros x y H. right. now split.
  - replace (pre ++ m :: cats) with ((pre ++ [m]) ++ cats)
      by (rewrite <- app_assoc; reflexivity).
    apply IH.
  - intros x y Hx Hy. left.
    apply in_map_iff in Hx. destruct Hx as [d [<- _]].
    destruct y as [m' d']. apply in_prod_iff in Hy. destruct Hy as [Hm _].
    simpl. apply in_split in Hm. destruct Hm as [l2 [l3 ->]].
    exists pre, l2, l3. reflexivity.
Qed.

Lemma month_order_NoDup : NoDup month_order.
Proof.
  unfold month_order.
  repeat (constructor; [simpl; intuition discriminate |]). constructor.
Qed.

Lemma month_device_lt_irrefl (cats : list string) (k : string * string) :
  NoDup cats -> ~ month_device_lt cats k k.
Proof.
  intros N [H | [_ H]].
  - exact (before_irrefl cats (fst k) N H).
  - exact (str_lt_irrefl _ H).
Qed.

Lemma set_month_categories_devices (cats : list string) (md : SessionFrame) :
  map dim_deviceCategory (s_rows (set_month_categories cats md))
  = map dim_deviceCategory (s_rows md).
Proof.
  unfold set_month_categories; cbn [s_rows].
  rewrite map_map. reflexivity.
Qed.

(** C1, as the code has it.  The grouped table has exactly one row for
    every pair of a month of the fixed list July, ..., June and a device
    category of the input, whether or not the pair occurs in the input; its
    rows are ordered by that fixed list, then by device category; a row
    holds the sums over the input rows of its month and device, which are
    zero when there is none. *)
Theorem month_device_rows (md : SessionFrame) :
  let out := md_rows (fst (create_month_device md)) in
  NoDup (map key out)
  /\ (forall m d, In (m, d) (map key out) <->
                  In m month_order
                  /\ In d (map dim_deviceCategory (s_rows md)))
  /\ StronglySorted (month_device_lt month_order) (map key out)
  /\ (forall g, In g out ->
        g = aggregate (key g)
              (filter (fun r => month_is (fst (key g)) r
                                && String.eqb (dim_deviceCategory r)
                                              (snd (key g)))
                      (s_rows (snd (create_month_device md)))))
  /\ (forall g, In g out ->
        (forall r, In r (s_rows md) ->
                   ~ (month_name r = Some (fst (key g))
                      /\ dim_deviceCategory r = snd (key g))) ->
        agg_sessions g = 0 /\ agg_transactions g = 0 /\ agg_QTY g = 0).
Proof.
  cbv zeta. unfold create_month_device; cbn [fst snd md_rows].
  set (md' := set_month_categories month_order md).
  assert (K : map key (groupby_month_device md')
              = list_prod month_order
                  (group_keys (map dim_deviceCategory (s_rows md)))).
  { rewrite groupby_month_device_keys.
    unfold md'. now rewrite set_month_categories_devices. }
  assert (S : StronglySorted (month_device_lt month_order)
                (map key (groupby_month_device md'))).
  { rewrite K. apply (list_prod_sorted _ (group_keys_sorted _) []). }
  assert (G : forall g, In g (groupby_month_device md') ->
                g = aggregate (key g)
                      (filter (fun r => month_is (fst (key g)) r
                                        && String.eqb (dim_deviceCategory r)
                                                      (snd (key g)))
                              (s_rows md'))).
  { intros g H. unfold groupby_month_device in H.
    apply in_flat_map in H. destruct H as [m [_ H]].
    apply in_map_iff in H. destruct H as [d [<- _]]. reflexivity. }
  split; [| split; [| split; [| split]]].
  - eapply StronglySorted_NoDup; [| exact S].
    intros k. apply month_device_lt_irrefl, month_order_NoDup.
  - intros m d. rewrite K, in_prod_iff, group_keys_In. reflexivity.
  - exact S.
  - exact G.
  - intros g H Hno. rewrite (G g H).
    assert (E : filter (fun r => month_is (fst (key g)) r
                                 && String.eqb (dim_deviceCategory r)
                                               (snd (key g)))
                       (s_rows md') = []).
    { destruct (filter _ (s_rows md')) as [| r rest] eqn:F; [reflexivity |].
      exfalso.
      assert (Hr : In r (r :: rest)) by now left.
      rewrite <- F in Hr. apply filter_In in Hr. destruct Hr as [Hr Hp].
      unfold md', set_month_categories in Hr; cbn [s_rows] in Hr.
      apply in_map_iff in Hr. destruct Hr as [r0 [<- Hr0]].
      apply andb_prop in Hp. destruct Hp as [Hm Hd].
      unfold month_is in Hm; cbn [month_name dim_deviceCategory] in Hm, Hd.
      apply opt_eqb_eq in Hm. apply categorical_Some in Hm.
      apply String.eqb_eq in Hd.
      apply (Hno r0 Hr0). split; [apply Hm | exact Hd]. }
    rewrite E. unfold aggregate; cbn. auto.
Qed.

Lemma month_device_rows_witness :
  In ("August", "Mobile")
     (map key (md_rows (fst (create_month_device sample_frame)))).
Proof.
  apply (proj1 (proj2 (month_device_rows sample_frame))). split.
  - unfold month_order. simpl. tauto.
  - vm_compute. tauto.
Defined.

(** C1 as stated fails on the table of June and July 2013.  Its first-seen
    month order is June, July, yet the July row precedes the June row; and
    there is a row for August and Desktop although no input row has that
    pair. *)
Lemma month_device_not_first_seen_order :
  let out := md_rows (fst (create_month_device summer_frame)) in
  s_categories summer_frame = ["June"; "July"]
  /\ before (map key out) ("July", "Desktop") ("June", "Desktop")
  /\ In ("August", "Desktop") (map key out)
  /\ ~ In (Some "August", "Desktop")
          (map (fun r => (month_name r, dim_deviceCategory r))
               (s_rows summer_frame)).
Proof.
  cbv zeta. split; [reflexivity |]. split; [| split].
  - exists [], (map (fun m => (m, "Desktop"))
                    ["August"; "September"; "October"; "November";
                     "December"; "January"; "February"; "March";
                     "April"; "May"]), [].
    vm_compute. reflexivity.
  - vm_compute. tauto.
  - vm_compute. intros [H | [H | []]]; discriminate.
Qed.

(* ================================================================== *)
(** * Sorting *)

Section StableSort.
Context {A : Type} (leb : A -> A -> bool).

Lemma insert_by_perm (x : A) (l : list A) :
  Permutation (insert_by leb x l) (x :: l).
Proof.
  induction l as [| y t IH]; simpl; [reflexivity |].
  destruct (leb x y); [reflexivity |].
  rewrite IH. apply perm_swap.
Qed.

Lemma stable_sort_perm (l : list A) : Permutation (stable_sort leb l) l.
Proof.
  induction l as [| x t IH]; simpl; [reflexivity |].
  rewrite insert_by_perm. now constructor.
Qed.

Variable R : A -> A -> Prop.
Hypothesis R_trans : forall x y z, R x y -> R y z -> R x z.
Hypothesis leb_true : forall x y, leb x y = true -> R x y.
Hypothesis leb_false : forall x y, leb x y = false -> R y x.

Lemma insert_by_sorted (x : A) (l : list A) :
  StronglySorted R l -> StronglySorted R (insert_by leb x l).
Proof.
  induction 1 as [| y t SS IH F]; simpl.
  - repeat constructor.
  - destruct (leb x y) eqn:E.
    + constructor; [now constructor |].
      constructor; [now apply leb_true |].
      eapply Forall_impl; [| exact F].
      intros z Hz. eapply R_trans; [apply leb_true; exact E | exact Hz].
    + constructor; [exact IH |].
      apply Forall_forall. intros z Hz.
      apply (Permutation_in _ (insert_by_perm x t)) in Hz.
      destruct Hz as [<- | Hz]; [now apply leb_false |].
      rewrite Forall_forall in F. now apply F.
Qed.

Lemma stable_sort_sorted (l : list A) : StronglySorted R (stable_sort leb l).
Proof.
  induction l as [| x t IH]; simpl; [constructor |].
  now apply insert_by_sorted.
Qed.
End StableSort.

(** Both insertion sorts of positions meet numpy's contract. *)
Lemma insertion_argsort_spec (cmp : Z -> Z -> bool) :
  (forall x y, cmp x y = true -> x <= y) ->
  (forall x y, cmp x y = false -> y <= x) ->
  argsort_spec (insertion_argsort cmp).
Proof.
  intros Ht Hf l. unfold insertion_argsort. split.
  - apply stable_sort_perm.
  - apply StronglySorted_map
      with (R := fun i j => nth i l 0 <= nth j l 0); [auto |].
    apply stable_sort_sorted.
    + intros x y z. apply Z.le_trans.
    + intros x y. apply Ht.
    + intros x y. apply Hf.
Qed.

Lemma leb_argsort_spec : argsort_spec (insertion_argsort Z.leb).
Proof.
  apply insertion_argsort_spec; intros x y H.
  - now apply Z.leb_le.
  - apply Z.leb_gt in H. lia.
Qed.


Lemma take_seq {A} (l : list A) : take l (seq 0 (List.length l)) = l.
Proof.
  unfold take.
  assert (H : forall pre, flat_map
            (fun i => match nth_error (pre ++ l) i with
                      | Some a => [a]
                      | None => []
                      end) (seq (List.length pre) (List.length l)) = l).
  { induction l as [| a t IH]; intros pre; simpl; [reflexivity |].
    rewrite nth_error_app2 by lia. rewrite Nat.sub_diag. simpl. f_equal.
    specialize (IH (pre ++ [a])).
    rewrite <- app_assoc, length_app in IH. simpl in IH.
    rewrite Nat.add_1_r in IH. exact IH. }
  exact (H []).
Qed.

Lemma take_perm {A} (l : list A) (indexer : list nat) :
  Permutation indexer (seq 0 (List.length l)) ->
  Permutation (take l indexer) l.
Proof.
  intros P. rewrite <- (take_seq l) at 2.
  unfold take. now apply Permutation_flat_map.
Qed.

Lemma map_take {A B} (f : A -> B) (d : B) (l : list A) (indexer : list nat) :
  Forall (fun i => (i < List.length l)%nat) indexer ->
  map f (take l indexer) = map (fun i => nth i (map f l) d) indexer.
Proof.
  unfold take. induction 1 as [| i t Hi F IH]; simpl; [reflexivity |].
  rewrite map_app, IH. f_equal.
  destruct (nth_error l i) as [a |] eqn:E.
  - simpl. erewrite nth_error_nth; [reflexivity |].
    now apply map_nth_error.
  - apply nth_error_None in E. lia.
Qed.

Lemma nargsort_desc_perm (argsort : list Z -> list nat) (items : list Z) :
  argsort_spec argsort ->
  Permutation (nargsort_desc argsort items) (seq 0 (List.length items)).
Proof.
  intros Spec. unfold nargsort_desc.
  destruct (Spec (rev items)) as [P _]. rewrite length_rev in P.
  rewrite <- Permutation_rev.
  set (n := List.length items) in *.
  rewrite (Permutation_map (fun j => (n - 1 - j)%nat) P).
  assert (E : map (fun j => (n - 1 - j)%nat) (seq 0 n) = rev (seq 0 n)).
  { clearbody n. clear. induction n as [| n IH]; [reflexivity |].
    rewrite seq_S at 2. rewrite rev_app_distr. simpl.
    rewrite <- seq_shift, map_map. f_equal; [f_equal; lia |].
    rewrite <- IH. apply map_ext. intros; lia. }
  rewrite E. symmetry. apply Permutation_rev.
Qed.

Lemma nargsort_desc_sorted (argsort : list Z -> list nat) (items : list Z) :
  argsort_spec argsort ->
  StronglySorted (fun x y => y <= x)
    (map (fun i => nth i items 0) (nargsort_desc argsort items)).
Proof.
  intros Spec. unfold nargsort_desc.
  destruct (Spec (rev items)) as [P S]. rewrite length_rev in P.
  rewrite map_rev. apply StronglySorted_rev.
  rewrite map_map.
  erewrite map_ext_in; [exact S |].
  intros j Hj. cbv beta.
  apply (Permutation_in _ P) in Hj. apply in_seq in Hj.
  rewrite rev_nth by lia. f_equal. lia.
Qed.




(* ================================================================== *)
(** * Totals Augmenter *)


Lemma filter_map_comm {A B} (f : A -> B) (p : B -> bool) (l : list A) :
  filter p (map f l) = map f (filter (fun x => p (f x)) l).
Proof.
  induction l as [| a t IH]; simpl; [reflexivity |].
  destruct (p (f a)); simpl; now rewrite IH.
Qed.










(** In the July sample the Total row's ECR is 1/10 + 3/10 = 2/5, whereas
    40 transactions in 200 sessions make 1/5. *)
Example total_ecr_differs_from_ratio :
  let out := fst (create_month_device_totals
                    (fst (create_month_device july_frame))) in
  exists total,
    In total out /\ key total = ("July", Some "Total")
    /\ agg_transactions total = 40 /\ agg_sessions total = 200
    /\ ECR total = Fin (Q2Qc (2 # 5))
    /\ ratio 40 200 = Fin (Q2Qc (1 # 5)).
Proof.
  cbv zeta.
  exists (with_device_category
            (total_row (md_rows (fst (create_month_device july_frame)))
                       "July")).
  split; [vm_compute; tauto |].
  repeat split; try (vm_compute; reflexivity);
    apply Fin_eq; vm_compute; reflexivity.
Qed.

(* ================================================================== *)
(** * Trend Comparator: changes between consecutive rows *)









Lemma merge_In (left : list (Agg string)) (adds : CartFrame) (r : Merged) :
  In r (merge left adds) ->
  exists g c, In g left /\ In c (c_rows adds)
              /\ c_month_name c = Some (key g)
              /\ m_month_name r = key g /\ m_ECR r = ECR g.
Proof.
  unfold merge. intros H.
  apply in_flat_map in H. destruct H as [g [Hg H]].
  apply in_map_iff in H. destruct H as [c [<- H]].
  apply filter_In in H. destruct H as [Hc E].
  apply opt_eqb_eq in E. exists g, c. now repeat split.
Qed.





(* ================================================================== *)
(** * Months of the comparison report *)

Lemma sumZ_map_nil {A} (f : A -> Z) (l : list A) :
  sumZ (map f l) <> 0 -> exists x, In x l.
Proof.
  destruct l as [| x t]; [now intros H | intros _; exists x; now left].
Qed.

Lemma last_three_grouped_group (md : SessionFrame) (g : Agg string) :
  In g (last_three_grouped md) ->
  g = fill_row (aggregate (key g)
                  (filter (month_is (key g))
                          (s_rows (filter_last_months md)))).
Proof.
  unfold last_three_grouped. intros H.
  apply filter_In in H. destruct H as [H _].
  apply in_map_iff in H. destruct H as [g0 [<- H]].
  apply in_map_iff in H. destruct H as [m [<- _]]. reflexivity.
Qed.

Lemma filter_last_months_In (df : SessionFrame) (r : Session) :
  In r (s_rows (filter_last_months df)) -> In r (s_rows df).
Proof.
  unfold filter_last_months; cbn [s_rows]. intros H.
  apply filter_In in H. destruct H as [H _].
  eapply Permutation_in; [apply stable_sort_perm | exact H].
Qed.

(** A month of the comparison report is the month of a session row. *)
Lemma mtm_month_in_sessions (session_counts : SessionFrame) (adds : CartFrame)
    (m : string) :
  In m (mx_columns (fst (create_mtm_compare session_counts adds))) ->
  In (Some m) (map month_name (s_rows session_counts)).
Proof.
  unfold create_mtm_compare; cbn [fst mx_columns]. intros H.
  apply in_map_iff in H. destruct H as [r [<- H]].
  unfold mtm_merged in H.
  destruct (merge_In _ _ _ H) as [g [_ [Hg [_ [_ [-> _]]]]]].
  destruct (last_three_grouped_ratio _ _ Hg) as [Hs _].
  rewrite (last_three_grouped_group _ _ Hg) in Hs.
  unfold fill_row, aggregate in Hs. cbn [agg_sessions key] in Hs.
  apply sumZ_map_nil in Hs. destruct Hs as [x Hx].
  apply filter_In in Hx. destruct Hx as [Hx Hm].
  apply filter_last_months_In in Hx.
  unfold month_is in Hm. apply opt_eqb_eq in Hm.
  apply in_map_iff. exists x. split; [| exact Hx].
  rewrite Hm. reflexivity.
Qed.

(* ================================================================== *)
(** * The Time Normalizer *)

Lemma apply_rows_ok {A B} (f : A -> result B) (l : list A) (bs : list B) :
  apply_rows f l = inr bs -> Forall2 (fun a b => f a = inr b) l bs.
Proof.
  revert bs. induction l as [| a t IH]; intros bs H; simpl in H.
  - injection H as <-. constructor.
  - destruct (f a) as [e | b] eqn:Ea; [discriminate |]. simpl in H.
    destruct (apply_rows f t) as [e | bs'] eqn:Et; [discriminate |].
    simpl in H. injection H as <-. constructor; [exact Ea | now apply IH].
Qed.

Lemma apply_rows_error {A B} (f : A -> result B) (l : list A) (e : PyError) :
  apply_rows f l = inl e -> exists a, In a l /\ f a = inl e.
Proof.
  induction l as [| a t IH]; intros H; simpl in H; [discriminate |].
  destruct (f a) as [e' | b] eqn:Ea.
  - simpl in H. injection H as ->. exists a. split; [now left | exact Ea].
  - simpl in H. destruct (apply_rows f t) as [e' | bs] eqn:Et.
    + simpl in H. injection H as ->.
      destruct (IH eq_refl) as [x [Hx Ex]]. exists x. split; [now right | exact Ex].
    + discriminate.
Qed.


Lemma Forall2_length_eq {A B} (R : A -> B -> Prop) (l : list A) (l' : list B) :
  Forall2 R l l' -> List.length l = List.length l'.
Proof. induction 1; simpl; congruence. Qed.

Lemma Forall2_In_l {A B} (R : A -> B -> Prop) (l : list A) (l' : list B)
    (a : A) :
  Forall2 R l l' -> In a l -> exists b, In b l' /\ R a b.
Proof.
  induction 1 as [| x y l l' Hxy F IH]; intros H; [contradiction |].
  destruct H as [<- | H].
  - exists y. split; [now left | exact Hxy].
  - destruct (IH H) as [b [Hb Rb]]. exists b. split; [now right | exact Rb].
Qed.

Lemma Forall2_In_r {A B} (R : A -> B -> Prop) (l : list A) (l' : list B)
    (b : B) :
  Forall2 R l l' -> In b l' -> exists a, In a l /\ R a b.
Proof.
  induction 1 as [| x y l l' Hxy F IH]; intros H; [contradiction |].
  destruct H as [<- | H].
  - exists x. split; [now left | exact Hxy].
  - destruct (IH H) as [a [Ha Ra]]. exists a. split; [now right | exact Ra].
Qed.

Lemma zip3_with_In {A B C D} (f : A -> B -> C -> D)
    (la : list A) (lb : list B) (lc : list C) (d : D) :
  In d (zip3_with f la lb lc) ->
  exists a b c, In a la /\ In b lb /\ In c lc /\ d = f a b c.
Proof.
  revert lb lc.
  induction la as [| a ta IH]; intros [| b tb] [| c tc] H;
    simpl in H; try contradiction.
  destruct H as [<- | H].
  - exists a, b, c. simpl. auto.
  - destruct (IH _ _ H) as [a' [b' [c' [Ha [Hb [Hc E]]]]]].
    exists a', b', c'. simpl. auto.
Qed.

Lemma zip_with_In {A B C} (f : A -> B -> C)
    (la : list A) (lb : list B) (d : C) :
  In d (zip_with f la lb) ->
  exists a b, In a la /\ In b lb /\ d = f a b.
Proof.
  revert lb. induction la as [| a ta IH]; intros [| b tb] H;
    simpl in H; try contradiction.
  destruct H as [<- | H].
  - exists a, b. simpl. auto.
  - destruct (IH _ H) as [a' [b' [Ha [Hb E]]]].
    exists a', b'. simpl. auto.
Qed.

Lemma map_zip3_with {A B C D E} (f : A -> B -> C -> D) (g : D -> E)
    (h : A -> E) (la : list A) (lb : list B) (lc : list C) :
  (forall a b c, g (f a b c) = h a) ->
  List.length lb = List.length la -> List.length lc = List.length la ->
  map g (zip3_with f la lb lc) = map h la.
Proof.
  intros Hg. revert lb lc.
  induction la as [| a ta IH]; intros [| b tb] [| c tc] Hb Hc;
    simpl in *; try discriminate; [reflexivity |].
  rewrite Hg. f_equal. apply IH; congruence.
Qed.

Lemma map_zip_with {A B C E} (f : A -> B -> C) (g : C -> E)
    (h : A -> E) (la : list A) (lb : list B) :
  (forall a b, g (f a b) = h a) ->
  List.length lb = List.length la ->
  map g (zip_with f la lb) = map h la.
Proof.
  intros Hg. revert lb.
  induction la as [| a ta IH]; intros [| b tb] Hb;
    simpl in *; try discriminate; [reflexivity |].
  rewrite Hg. f_equal. apply IH; congruence.
Qed.

(** What a successful [clean_tables] went through. *)
Lemma clean_tables_ok (session_cts : list Raw.Session)
    (cart_adds : list Raw.CartAdd) (sc : SessionFrame) (adds : CartFrame) :
  clean_tables session_cts cart_adds = inr (sc, adds) ->
  exists texts years names cart_names,
    Forall2 (fun r t => year_text (Raw.dim_date r) = inr t) session_cts texts
    /\ Forall2 (fun t y => year_int t = inr y) texts years
    /\ Forall2 (fun r n => map_month (month_text (Raw.dim_date r)) = inr n)
               session_cts names
    /\ Forall2 (fun c n => map_month (astype_str (Raw.dim_month c)) = inr n)
               cart_adds cart_names
    /\ sc = {| s_rows := zip3_with (mk_session (unique names))
                                   session_cts years names;
               s_categories := unique names |}
    /\ adds = {| c_rows := zip_with (mk_cart (unique names))
                                    cart_adds cart_names;
                 c_categories := unique names |}.
Proof.
  unfold clean_tables. intros H.
  destruct (apply_rows (fun r => year_text (Raw.dim_date r)) session_cts)
    as [e | texts] eqn:E1; [discriminate |]. cbn [bind] in H.
  destruct (apply_rows year_int texts) as [e | years] eqn:E2;
    [discriminate |]. cbn [bind] in H.
  destruct (apply_rows (fun r => map_month (month_text (Raw.dim_date r)))
                       session_cts)
    as [e | names] eqn:E3; [discriminate |]. cbn [bind] in H.
  destruct (apply_rows (fun c => map_month (astype_str (Raw.dim_month c)))
                       cart_adds)
    as [e | cart_names] eqn:E4; [discriminate |]. cbn [bind] in H.
  unfold ok in H. injection H as <- <-.
  exists texts, years, names, cart_names.
  repeat split; try reflexivity; now apply apply_rows_ok.
Qed.

(** After [clean_tables] the month of a session row is one of the
    categories, which are the months of the session rows. *)
Lemma clean_tables_months (session_cts : list Raw.Session)
    (cart_adds : list Raw.CartAdd) (sc : SessionFrame) (adds : CartFrame)
    (m : string) :
  clean_tables session_cts cart_adds = inr (sc, adds) ->
  In (Some m) (map month_name (s_rows sc)) ->
  In m (s_categories sc)
  /\ exists r, In r session_cts
               /\ map_month (month_text (Raw.dim_date r)) = inr m.
Proof.
  intros H Hm.
  destruct (clean_tables_ok _ _ _ _ H)
    as [texts [years [names [cart_names [_ [_ [F3 [_ [-> _]]]]]]]]].
  cbn [s_rows s_categories] in *.
  apply in_map_iff in Hm. destruct Hm as [row [Em Hrow]].
  apply zip3_with_In in Hrow.
  destruct Hrow as [r [y [n [Hr [_ [Hn ->]]]]]].
  unfold mk_session in Em; cbn [month_name] in Em.
  apply categorical_Some in Em. destruct Em as [[= ->] Hin].
  split; [exact Hin |].
  destruct (Forall2_In_r _ _ _ _ F3 Hn) as [r' [Hr' E]].
  now exists r'.
Qed.

(* ================================================================== *)
(** * The pipeline *)

(** The reports in terms of the cleaned tables. *)
Lemma generate_excel_reports (argsort : list Z -> list nat)
    (session_counts : list Raw.Session) (adds_to_cart : list Raw.CartAdd)
    (sc : SessionFrame) (adds : CartFrame) :
  clean_tables session_counts adds_to_cart = inr (sc, adds) ->
  generate_excel argsort session_counts adds_to_cart
  = inr {| sheet_month_device := fst (create_month_device sc);
           sheet_mtm_compare :=
             fst (create_mtm_compare (snd (create_month_device sc)) adds);
           sheet_browser :=
             top_browsers argsort
               (fst (create_browser_device (snd (create_month_device sc))));
           sheet_totals :=
             fst (create_month_device_totals
                    (fst (create_month_device sc))) |}.
Proof.
  intros H. unfold generate_excel. rewrite H. reflexivity.
Qed.

Lemma generate_excel_ok (argsort : list Z -> list nat)
    (session_counts : list Raw.Session) (adds_to_cart : list Raw.CartAdd)
    (reports : Reports) :
  generate_excel argsort session_counts adds_to_cart = inr reports ->
  exists sc adds,
    clean_tables session_counts adds_to_cart = inr (sc, adds)
    /\ sheet_mtm_compare reports
       = fst (create_mtm_compare (snd (create_month_device sc)) adds).
Proof.
  intros H.
  destruct (clean_tables session_counts adds_to_cart) as [e | [sc adds]] eqn:E.
  - unfold generate_excel in H. rewrite E in H. discriminate.
  - rewrite (generate_excel_reports argsort _ _ _ _ E) in H.
    injection H as <-. now exists sc, adds.
Qed.

Lemma set_month_categories_month (cats : list string) (md : SessionFrame)
    (m : string) :
  In (Some m) (map month_name (s_rows (set_month_categories cats md))) ->
  In (Some m) (map month_name (s_rows md)).
Proof.
  unfold set_month_categories; cbn [s_rows]. rewrite map_map.
  intros H. apply in_map_iff in H. destruct H as [r [E Hr]].
  cbn [month_name] in E. apply categorical_Some in E.
  apply in_map_iff. exists r. split; [apply E | exact Hr].
Qed.

(** C2.  Every month that labels a column of the month-to-month comparison
    is a category of the order [clean_tables] derives from the session
    table, and is the month of a session row; a month found in the cart
    table only labels no column. *)
Theorem mtm_months_from_sessions (argsort : list Z -> list nat)
    (session_counts : list Raw.Session) (adds_to_cart : list Raw.CartAdd)
    (reports : Reports) (m : string) :
  generate_excel argsort session_counts adds_to_cart = inr reports ->
  In m (mx_columns (sheet_mtm_compare reports)) ->
  exists sc adds,
    clean_tables session_counts adds_to_cart = inr (sc, adds)
    /\ In m (s_categories sc)
    /\ exists r, In r session_counts
                 /\ map_month (month_text (Raw.dim_date r)) = inr m.
Proof.
  intros H Hm.
  destruct (generate_excel_ok _ _ _ _ H) as [sc [adds [Hc E]]].
  rewrite E in Hm.
  apply mtm_month_in_sessions in Hm.
  unfold create_month_device in Hm; cbn [snd] in Hm.
  apply set_month_categories_month in Hm.
  exists sc, adds. split; [exact Hc |].
  exact (clean_tables_months _ _ _ _ _ Hc Hm).
Qed.

Lemma mtm_months_from_sessions_witness :
  exists sc adds,
    clean_tables sample_sessions sample_adds = inr (sc, adds)
    /\ In "July" (s_categories sc)
    /\ exists r, In r sample_sessions
                 /\ map_month (month_text (Raw.dim_date r)) = inr "July".
Proof.
  apply (mtm_months_from_sessions (insertion_argsort Z.leb)
           sample_sessions sample_adds sample_reports "July").
  - vm_compute. reflexivity.
  - vm_compute. tauto.
Defined.

(* ================================================================== *)
(** * Failure of the Time Normalizer *)









Lemma split_app_slash (a b : string) :
  no_slash a = true ->
  split "/" (a ++ String "/" b)%string = a :: split "/" b.
Proof.
  induction a as [| c a IH]; intros H; simpl in *; [reflexivity |].
  apply andb_prop in H. destruct H as [Hc Ha].
  apply negb_true_iff in Hc. rewrite Hc, (IH Ha). reflexivity.
Qed.

Lemma split_no_slash (s : string) :
  no_slash s = true -> split "/" s = [s].
Proof.
  induction s as [| c s IH]; intros H; simpl in *; [reflexivity |].
  apply andb_prop in H. destruct H as [Hc Hs].
  apply negb_true_iff in Hc. rewrite Hc, (IH Hs). reflexivity.
Qed.

Lemma digit_not_slash (c : ascii) :
  is_digit c = true -> Ascii.eqb c "/" = false.
Proof.
  intros H. destruct (Ascii.eqb_spec c "/") as [-> | _]; [| reflexivity].
  discriminate.
Qed.

Lemma int_digits_digit (b : bool) (acc : Z) (c : ascii) (r : string) :
  is_digit c = true ->
  int_digits b acc (String c r) = int_digits true (10 * acc + digit_val c) r.
Proof. intros H. cbn [int_digits]. now rewrite H. Qed.












(* ================================================================== *)
(** * What the components leave in the tables they are given *)

Lemma clean_tables_lengths (session_cts : list Raw.Session)
    (cart_adds : list Raw.CartAdd) (sc : SessionFrame) (cart : CartFrame) :
  clean_tables session_cts cart_adds = inr (sc, cart) ->
  exists years names cart_names,
    List.length years = List.length session_cts
    /\ List.length names = List.length session_cts
    /\ List.length cart_names = List.length cart_adds
    /\ s_rows sc = zip3_with (mk_session (unique names))
                             session_cts years names
    /\ c_rows cart = zip_with (mk_cart (unique names)) cart_adds cart_names
    /\ s_categories sc = unique names
    /\ c_categories cart = unique names.
Proof.
  intros H.
  destruct (clean_tables_ok _ _ _ _ H)
    as [texts [years [names [cart_names [F1 [F2 [F3 [F4 [-> ->]]]]]]]]].
  exists years, names, cart_names.
  apply Forall2_length_eq in F1, F2, F3, F4.
  repeat split; try reflexivity; congruence.
Qed.

(** C8, as the code has it.  [create_browser_device],
    [create_mtm_compare] and [create_month_device_totals] leave the tables
    they are given as they were.  [create_month_device] assigns the
    [month_name] column of its table: the categories become the fixed list
    and a value outside it becomes NaN, the other columns stay.
    [clean_tables] assigns into both tables: the device category is
    title-cased and the month cell becomes text, while the date, browser,
    counts, cart year and cart adds stay. *)
Theorem tables_after_components (md : SessionFrame) (adds : CartFrame)
    (month_device : MonthDeviceFrame)
    (session_cts : list Raw.Session) (cart_adds : list Raw.CartAdd)
    (sc : SessionFrame) (cart : CartFrame) :
  clean_tables session_cts cart_adds = inr (sc, cart) ->
  snd (create_browser_device md) = md
  /\ snd (create_mtm_compare md adds) = (md, adds)
  /\ snd (create_month_device_totals month_device) = month_device
  /\ (s_categories (snd (create_month_device md)) = month_order
      /\ map other_columns (s_rows (snd (create_month_device md)))
         = map other_columns (s_rows md)
      /\ map month_name (s_rows (snd (create_month_device md)))
         = map (fun r => categorical month_order (month_name r)) (s_rows md))
  /\ (map dim_date (s_rows sc) = map Raw.dim_date session_cts
      /\ map dim_browser (s_rows sc) = map Raw.dim_browser session_cts
      /\ map sessions (s_rows sc) = map Raw.sessions session_cts
      /\ map transactions (s_rows sc) = map Raw.transactions session_cts
      /\ map QTY (s_rows sc) = map Raw.QTY session_cts
      /\ map dim_deviceCategory (s_rows sc)
         = map (fun r => title (Raw.dim_deviceCategory r)) session_cts
      /\ map addsToCart (c_rows cart) = map Raw.addsToCart cart_adds
      /\ map c_Year (c_rows cart) = map Raw.dim_year cart_adds
      /\ map dim_month (c_rows cart)
         = map (fun c => astype_str (Raw.dim_month c)) cart_adds).
Proof.
  intros H.
  split; [reflexivity | split; [reflexivity | split; [reflexivity |]]].
  split.
  - unfold create_month_device, set_month_categories; cbn [snd s_rows
      s_categories].
    rewrite !map_map. repeat split; reflexivity.
  - destruct (clean_tables_lengths _ _ _ _ H)
      as [years [names [cart_names [Ly [Ln [Lc [-> [-> _]]]]]]]].
    repeat split;
      first [ apply map_zip3_with; [reflexivity | exact Ly | exact Ln]
            | apply map_zip_with; [reflexivity | exact Lc] ].
Qed.

Lemma tables_after_components_witness :
  map dim_deviceCategory (s_rows sample_frame)
  = map (fun r => title (Raw.dim_deviceCategory r)) sample_sessions.
Proof.
  assert (H : clean_tables sample_sessions []
              = inr (sample_frame, {| c_rows := []; c_categories :=
                                        s_categories sample_frame |})).
  { vm_compute. reflexivity. }
  exact (proj1 (proj2 (proj2 (proj2 (proj2 (proj2
           (proj2 (proj2 (proj2 (proj2
             (tables_after_components
                sample_frame sample_cart
                (fst (create_month_device sample_frame))
                _ _ _ _ H))))))))))).
Defined.

(** C8 as stated fails: after [clean_tables] the device column of the
    session table passed in reads Desktop where it read desktop, and after
    [create_month_device] the month categories of the table passed in are
    the fixed list, not the ones it came with. *)
Lemma components_assign_into_their_tables :
  exists sc cart,
    clean_tables sample_sessions sample_adds = inr (sc, cart)
    /\ map dim_deviceCategory (s_rows sc)
       <> map Raw.dim_deviceCategory sample_sessions
    /\ s_categories sc = ["July"; "August"]
    /\ s_categories (snd (create_month_device sc)) = month_order
    /\ snd (create_month_device sc) <> sc.
Proof.
  exists sample_frame, sample_cart.
  split; [vm_compute; reflexivity |].
  split; [vm_compute; discriminate |].
  split; [reflexivity |]. split; [reflexivity |].
  intros E. apply (f_equal s_categories) in E. vm_compute in E. discriminate.
Qed.

(* ================================================================== *)
(** * Determinism *)



(* ================================================================== *)
(** * Further properties of the Time Normalizer *)

Lemma unique_from_In (x : string) (seen l : list string) :
  In x (unique_from seen l) <-> In x l /\ ~ In x seen.
Proof.
  revert seen. induction l as [| a t IH]; intros seen; simpl; [tauto |].
  destruct (mem a seen) eqn:E.
  - apply mem_In in E. rewrite IH. split.
    + intros [H1 H2]. auto.
    + intros [[-> | H1] H2]; [contradiction | auto].
  - assert (N : ~ In a seen) by (intros H; apply mem_In in H; congruence).
    simpl. rewrite IH. simpl. split.
    + intros [<- | [H1 H2]]; [auto | split; [auto | tauto]].
    + intros [[<- | H1] H2]; [now left |].
      destruct (string_dec a x) as [-> | Hne]; [now left | right].
      split; [exact H1 | intros [? | ?]; [contradiction | contradiction]].
Qed.

Lemma unique_from_NoDup (seen l : list string) : NoDup (unique_from seen l).
Proof.
  revert seen. induction l as [| a t IH]; intros seen; simpl; [constructor |].
  destruct (mem a seen); [apply IH |].
  constructor; [| apply IH].
  intros H. apply unique_from_In in H. destruct H as [_ H]. apply H. now left.
Qed.

Lemma unique_In (x : string) (l : list string) : In x (unique l) <-> In x l.
Proof. unfold unique. rewrite unique_from_In. simpl. tauto. Qed.

Lemma unique_NoDup (l : list string) : NoDup (unique l).
Proof. apply unique_from_NoDup. Qed.

Lemma zip3_with_Forall2 {A B C D E} (f : A -> C -> D -> E)
    (R1 : A -> B -> Prop) (R2 : B -> C -> Prop) (R3 : A -> D -> Prop)
    (la : list A) (lb : list B) (lc : list C) (ld : list D) :
  Forall2 R1 la lb -> Forall2 R2 lb lc -> Forall2 R3 la ld ->
  Forall2 (fun a e => exists b c d,
             R1 a b /\ R2 b c /\ R3 a d /\ e = f a c d)
          la (zip3_with f la lc ld).
Proof.
  intros F1. revert lc ld.
  induction F1 as [| a b la lb Hab F1 IH]; intros lc ld F2 F3.
  - constructor.
  - inversion F2 as [| b' c lb' lc' Hbc F2']; subst.
    inversion F3 as [| a' d la' ld' Had F3']; subst.
    simpl. constructor.
    + exists b, c, d. auto.
    + now apply IH.
Qed.

Lemma zip_with_Forall2 {A B C} (f : A -> B -> C) (R : A -> B -> Prop)
    (la : list A) (lb : list B) :
  Forall2 R la lb ->
  Forall2 (fun a c => exists b, R a b /\ c = f a b) la (zip_with f la lb).
Proof.
  induction 1 as [| a b la lb Hab F IH]; simpl; constructor.
  - now exists b.
  - exact IH.
Qed.

(** Row by row, what [clean_tables] made of the two tables. *)
Lemma clean_tables_rows (session_cts : list Raw.Session)
    (cart_adds : list Raw.CartAdd) (sc : SessionFrame) (cart : CartFrame) :
  clean_tables session_cts cart_adds = inr (sc, cart) ->
  Forall2 (fun r row => exists t y n,
             year_text (Raw.dim_date r) = inr t
             /\ year_int t = inr y
             /\ map_month (month_text (Raw.dim_date r)) = inr n
             /\ row = mk_session (s_categories sc) r y n)
          session_cts (s_rows sc)
  /\ Forall2 (fun c row => exists n,
                map_month (astype_str (Raw.dim_month c)) = inr n
                /\ row = mk_cart (s_categories sc) c n)
             cart_adds (c_rows cart)
  /\ c_categories cart = s_categories sc
  /\ (forall m, In m (s_categories sc) <->
                exists r, In r session_cts
                          /\ map_month (month_text (Raw.dim_date r)) = inr m)
  /\ NoDup (s_categories sc).
Proof.
  intros H.
  destruct (clean_tables_ok _ _ _ _ H)
    as [texts [years [names [cart_names [F1 [F2 [F3 [F4 [-> ->]]]]]]]]].
  cbn [s_rows s_categories c_rows c_categories].
  split; [| split; [| split; [reflexivity | split]]].
  - eapply Forall2_impl; [| exact (zip3_with_Forall2 _ _ _ _ _ _ _ _ F1 F2 F3)].
    intros r row [t [y [n [H1 [H2 [H3 ->]]]]]]. exists t, y, n. auto.
  - apply (zip_with_Forall2 _ _ _ _ F4).
  - intros m. rewrite unique_In. split.
    + intros Hm. destruct (Forall2_In_r _ _ _ _ F3 Hm) as [r [Hr E]].
      now exists r.
    + intros [r [Hr E]].
      destruct (Forall2_In_l _ _ _ _ F3 Hr) as [n [Hn E']].
      congruence.
  - apply unique_NoDup.
Qed.

Lemma categorical_In (cats : list string) (n : string) :
  In n cats -> categorical cats (Some n) = Some n.
Proof. intros H. apply categorical_Some. now split. Qed.

Lemma categorical_not_In (cats : list string) (n : string) :
  ~ In n cats -> categorical cats (Some n) = None.
Proof.
  intros H. unfold categorical. destruct (mem n cats) eqn:E; [| reflexivity].
  apply mem_In in E. contradiction.
Qed.

(** After a successful [clean_tables] the session table has as many rows
    as before, no month of it is NaN, every row's month is the name of its
    month text and one of the categories, and the categories are exactly
    the months of the rows, each once. *)
Theorem clean_tables_session_months (session_cts : list Raw.Session)
    (cart_adds : list Raw.CartAdd) (sc : SessionFrame) (cart : CartFrame) :
  clean_tables session_cts cart_adds = inr (sc, cart) ->
  NoDup (s_categories sc)
  /\ List.length (s_rows sc) = List.length session_cts
  /\ (forall row, In row (s_rows sc) ->
        exists m, month_name row = Some m
                  /\ In m (s_categories sc)
                  /\ map_month (Month row) = inr m)
  /\ (forall m, In m (s_categories sc) ->
                In (Some m) (map month_name (s_rows sc))).
Proof.
  intros H.
  destruct (clean_tables_rows _ _ _ _ H) as [Fs [_ [_ [Cats N]]]].
  split; [exact N |].
  split; [symmetry; exact (Forall2_length_eq _ _ _ Fs) |].
  split.
  - intros row Hrow.
    destruct (Forall2_In_r _ _ _ _ Fs Hrow)
      as [r [Hr [t [y [n [_ [_ [En ->]]]]]]]].
    assert (Hn : In n (s_categories sc)) by (apply Cats; now exists r).
    exists n. unfold mk_session; cbn [month_name Month].
    split; [now apply categorical_In | split; [exact Hn | exact En]].
  - intros m Hm. apply Cats in Hm. destruct Hm as [r [Hr En]].
    destruct (Forall2_In_l _ _ _ _ Fs Hr)
      as [row [Hrow [t [y [n [_ [_ [En' ->]]]]]]]].
    apply in_map_iff. eexists. split; [| exact Hrow].
    unfold mk_session; cbn [month_name].
    assert (n = m) by congruence. subst n.
    apply categorical_In. apply Cats. now exists r.
Qed.

Lemma clean_tables_session_months_witness :
  List.length (s_rows sample_frame) = 3%nat.
Proof.
  assert (H : clean_tables sample_sessions sample_adds
              = inr (sample_frame, sample_cart))
    by (vm_compute; reflexivity).
  exact (proj1 (proj2 (clean_tables_session_months _ _ _ _ H))).
Defined.

(** After a successful [clean_tables] the cart table has as many rows as
    before and shares the categories of the session table; the month of a
    cart row is the name of its month cell when some session row has that
    month, and NaN when none has. *)
Theorem clean_tables_cart_months (session_cts : list Raw.Session)
    (cart_adds : list Raw.CartAdd) (sc : SessionFrame) (cart : CartFrame) :
  clean_tables session_cts cart_adds = inr (sc, cart) ->
  c_categories cart = s_categories sc
  /\ List.length (c_rows cart) = List.length cart_adds
  /\ (forall row, In row (c_rows cart) ->
        exists n,
          map_month (dim_month row) = inr n
          /\ (In (Some n) (map month_name (s_rows sc)) ->
              c_month_name row = Some n)
          /\ (~ In (Some n) (map month_name (s_rows sc)) ->
              c_month_name row = None)).
Proof.
  intros H.
  destruct (clean_tables_rows _ _ _ _ H) as [Fs [Fc [Ec [Cats _]]]].
  split; [exact Ec |].
  split; [symmetry; exact (Forall2_length_eq _ _ _ Fc) |].
  intros row Hrow.
  destruct (Forall2_In_r _ _ _ _ Fc Hrow) as [c [Hc [n [En ->]]]].
  exists n. unfold mk_cart; cbn [dim_month c_month_name].
  split; [exact En |]. split.
  - intros Hin. apply categorical_In.
    apply in_map_iff in Hin. destruct Hin as [srow [Em Hs]].
    destruct (Forall2_In_r _ _ _ _ Fs Hs)
      as [r [Hr [t [y [n' [_ [_ [En' ->]]]]]]]].
    unfold mk_session in Em; cbn [month_name] in Em.
    apply categorical_Some in Em. apply Em.
  - intros Hnot. apply categorical_not_In. intros Hin. apply Hnot.
    apply Cats in Hin. destruct Hin as [r [Hr En']].
    destruct (Forall2_In_l _ _ _ _ Fs Hr)
      as [srow [Hs [t [y [n' [_ [_ [En'' ->]]]]]]]].
    apply in_map_iff. eexists. split; [| exact Hs].
    unfold mk_session; cbn [month_name].
    assert (n' = n) by congruence. subst n'.
    apply categorical_In. apply Cats. now exists r.
Qed.

Lemma clean_tables_cart_months_witness :
  c_categories sample_cart = s_categories sample_frame.
Proof.
  assert (H : clean_tables sample_sessions sample_adds
              = inr (sample_frame, sample_cart))
    by (vm_compute; reflexivity).
  exact (proj1 (clean_tables_cart_months _ _ _ _ H)).
Defined.

Lemma map_month_in_month_order (s n : string) :
  map_month s = inr n -> In n month_order.
Proof.
  unfold map_month.
  repeat match goal with
         | |- context [if ?b then _ else _] =>
             destruct b;
             [intros [= <-]; unfold month_order; simpl;
              repeat (first [left; reflexivity | right]) |]
         end.
  discriminate.
Qed.

Lemma cleaned_rows_kept (session_cts : list Raw.Session)
    (cart_adds : list Raw.CartAdd) (sc : SessionFrame) (cart : CartFrame) :
  clean_tables session_cts cart_adds = inr (sc, cart) ->
  s_rows (set_month_categories month_order sc) = s_rows sc.
Proof.
  intros H.
  destruct (clean_tables_rows _ _ _ _ H) as [Fs [_ [_ [Cats _]]]].
  unfold set_month_categories; cbn [s_rows].
  rewrite <- (map_id (s_rows sc)) at 2.
  apply map_ext_in. intros row Hrow.
  destruct (Forall2_In_r _ _ _ _ Fs Hrow)
    as [r [Hr [t [y [n [_ [_ [En ->]]]]]]]].
  unfold mk_session;
    cbn [dim_date dim_deviceCategory dim_browser sessions transactions
         QTY Month Year month_name].
  assert (Hn : In n (s_categories sc)) by (apply Cats; now exists r).
  rewrite (categorical_In _ _ Hn).
  rewrite (categorical_In _ _ (map_month_in_month_order _ _ En)).
  reflexivity.
Qed.

(** Every month name [clean_tables] can produce is in the fixed list of
    [create_month_device]: on a cleaned table the assignment of that list
    as categories changes no month and makes none NaN. *)
Theorem create_month_device_keeps_months (session_cts : list Raw.Session)
    (cart_adds : list Raw.CartAdd) (sc : SessionFrame) (cart : CartFrame) :
  clean_tables session_cts cart_adds = inr (sc, cart) ->
  s_rows (snd (create_month_device sc)) = s_rows sc
  /\ incl (s_categories sc) month_order.
Proof.
  intros H. split.
  - exact (cleaned_rows_kept _ _ _ _ H).
  - destruct (clean_tables_rows _ _ _ _ H) as [_ [_ [_ [Cats _]]]].
    intros m Hm. apply Cats in Hm. destruct Hm as [r [_ En]].
    exact (map_month_in_month_order _ _ En).
Qed.

Lemma create_month_device_keeps_months_witness :
  s_rows (snd (create_month_device sample_frame)) = s_rows sample_frame.
Proof.
  assert (H : clean_tables sample_sessions sample_adds
              = inr (sample_frame, sample_cart))
    by (vm_compute; reflexivity).
  exact (proj1 (create_month_device_keeps_months _ _ _ _ H)).
Defined.

Lemma year_value (a b : ascii) :
  is_digit a = true -> is_digit b = true ->
  py_int (String "2" (String "0" (String a (String b ""))))
  = Some (2000 + 10 * digit_val a + digit_val b).
Proof.
  intros Ha Hb.
  change (py_int (String "2" (String "0" (String a (String b "")))))
    with (int_digits false 0 (String "2" (String "0" (String a (String b ""))))).
  rewrite !int_digits_digit by (reflexivity || assumption).
  cbn [int_digits]. f_equal.
  change (digit_val "2") with 2. change (digit_val "0") with 0. lia.
Qed.

Lemma split_three (m day yy : string) :
  no_slash m = true -> no_slash day = true -> no_slash yy = true ->
  split "/" (m ++ "/" ++ day ++ "/" ++ yy)%string = [m; day; yy].
Proof.
  intros Hm Hd Hy.
  change ("/" ++ day ++ "/" ++ yy)%string
    with (String "/" (day ++ String "/" yy)).
  rewrite (split_app_slash _ _ Hm), (split_app_slash _ _ Hd),
    (split_no_slash _ Hy). reflexivity.
Qed.

Lemma Forall2_head {A B} (R : A -> B -> Prop) (a : A) (l : list A)
    (l' : list B) (d : B) :
  Forall2 R (a :: l) l' -> R a (hd d l').
Proof. inversion 1; assumption. Qed.

(** The year of a cleaned row whose date ends in two digits is 2000 plus
    these two digits (so 99 becomes 2099), and a year of one digit is read
    as if a zero stood before it. *)
Theorem clean_tables_year (session_cts : list Raw.Session)
    (cart_adds : list Raw.CartAdd) (sc : SessionFrame) (cart : CartFrame) :
  clean_tables session_cts cart_adds = inr (sc, cart) ->
  Forall2 (fun r row =>
             forall m day a,
               no_slash m = true -> no_slash day = true ->
               is_digit a = true ->
               (forall b, is_digit b = true ->
                  Raw.dim_date r
                  = (m ++ "/" ++ day ++ "/" ++ String a (String b ""))%string ->
                  Year row = 2000 + 10 * digit_val a + digit_val b)
               /\ (Raw.dim_date r
                   = (m ++ "/" ++ day ++ "/" ++ String a "")%string ->
                   Year row = 2000 + digit_val a))
          session_cts (s_rows sc).
Proof.
  intros H.
  destruct (clean_tables_rows _ _ _ _ H) as [Fs _].
  eapply Forall2_impl; [| exact Fs].
  intros r row [t [y [n [Et [Ey [_ ->]]]]]] m day a Hm Hd Ha.
  unfold mk_session; cbn [Year].
  pose proof (digit_not_slash a Ha) as Na.
  split.
  - intros b Hb Ed.
    pose proof (digit_not_slash b Hb) as Nb.
    unfold year_text in Et. rewrite Ed, split_three in Et;
      [| assumption | assumption | simpl; now rewrite Na, Nb].
    cbn [nth_error] in Et. injection Et as <-.
    unfold year_int in Ey.
    change ("20" ++ zfill2 (String a (String b "")))%string
      with (String "2" (String "0" (String a (String b "")))) in Ey.
    rewrite (year_value a b Ha Hb) in Ey. now injection Ey as <-.
  - intros Ed.
    unfold year_text in Et. rewrite Ed, split_three in Et;
      [| assumption | assumption | simpl; now rewrite Na].
    cbn [nth_error] in Et. injection Et as <-.
    unfold year_int in Ey.
    assert (P : Ascii.eqb a "+" = false).
    { destruct (Ascii.eqb a "+") eqn:P; [| reflexivity].
      apply Ascii.eqb_eq in P. rewrite P in Ha. discriminate Ha. }
    assert (M : Ascii.eqb a "-" = false).
    { destruct (Ascii.eqb a "-") eqn:M; [| reflexivity].
      apply Ascii.eqb_eq in M. rewrite M in Ha. discriminate Ha. }
    unfold zfill2 in Ey. rewrite ?P, ?M in Ey. cbn [orb] in Ey.
    change ("20" ++ String "0" (String a ""))%string
      with (String "2" (String "0" (String "0" (String a "")))) in Ey.
    rewrite (year_value "0" a eq_refl Ha) in Ey.
    assert (Y : y = 2000 + 10 * digit_val "0" + digit_val a)
      by (unfold ok in Ey; congruence).
    rewrite Y. change (digit_val "0") with 0. lia.
Qed.

Lemma clean_tables_year_witness :
  Year (hd (mk_session [] one_digit_year 0 "")
           (s_rows (cleaned_sessions [one_digit_year]))) = 2007.
Proof.
  assert (H : clean_tables [one_digit_year] []
              = inr (cleaned_sessions [one_digit_year],
                     {| c_rows := []; c_categories := ["March"] |}))
    by (vm_compute; reflexivity).
  pose proof (Forall2_head _ _ _ _ (mk_session [] one_digit_year 0 "")
                (clean_tables_year _ _ _ _ H)) as Hrow.
  exact (proj2 (Hrow "3" "9" "7"%char eq_refl eq_refl eq_refl) eq_refl).
Defined.

(* ================================================================== *)
(** * Title case *)

Lemma to_lower_facts (c : ascii) :
  to_lower (to_lower c) = to_lower c
  /\ to_upper (to_lower c) = to_upper c
  /\ (is_lower (to_lower c) || is_upper (to_lower c))%bool
     = (is_lower c || is_upper c)%bool.
Proof.
  destruct c as [[] [] [] [] [] [] [] []]; vm_compute; auto.
Qed.

Lemma title_from_lower (b : bool) (s : string) :
  title_from b (lower s) = title_from b s.
Proof.
  revert b. induction s as [| c s IH]; intros b; simpl; [reflexivity |].
  destruct (to_lower_facts c) as [E1 [E2 E3]].
  rewrite E3, IH. destruct b; [now rewrite E1 | now rewrite E2].
Qed.

(** Title-casing forgets the letter case of the input: device categories
    that differ only in the case of ASCII letters are the same category
    after [clean_tables]. *)
Theorem title_ignores_case (s1 s2 : string) :
  lower s1 = lower s2 -> title s1 = title s2.
Proof.
  intros H. unfold title.
  rewrite <- (title_from_lower false s1), <- (title_from_lower false s2).
  now rewrite H.
Qed.

Lemma title_ignores_case_witness : title "smart TV" = title "SMART tv".
Proof. apply title_ignores_case. reflexivity. Defined.

(* ================================================================== *)
(** * The month filter of the Trend Comparator *)

Lemma existsb_opt_eqb (x : option string) (l : list (option string)) :
  existsb (opt_eqb x) l = true <-> In x l.
Proof.
  rewrite existsb_exists. split.
  - intros [y [Hy E]]. apply opt_eqb_eq in E. now subst.
  - intros H. exists x. split; [exact H | now apply opt_eqb_eq].
Qed.

Lemma unique_opt_from_In (x : option string) (seen l : list (option string)) :
  In x (unique_opt_from seen l) <-> In x l /\ ~ In x seen.
Proof.
  revert seen. induction l as [| a t IH]; intros seen; simpl; [tauto |].
  destruct (existsb (opt_eqb a) seen) eqn:E.
  - apply existsb_opt_eqb in E. rewrite IH. split.
    + intros [H1 H2]. auto.
    + intros [[-> | H1] H2]; [contradiction | auto].
  - assert (N : ~ In a seen).
    { intros H. apply existsb_opt_eqb in H. congruence. }
    simpl. rewrite IH. simpl. split.
    + intros [<- | [H1 H2]]; [auto | split; [auto | tauto]].
    + intros [[<- | H1] H2]; [now left |].
      destruct (opt_eqb a x) eqn:Eax.
      * apply opt_eqb_eq in Eax. now left.
      * right. split; [exact H1 |].
        intros [Hax | Hs]; [| contradiction].
        subst. assert (opt_eqb x x = true) by now apply opt_eqb_eq.
        congruence.
Qed.

Lemma unique_opt_from_NoDup (seen l : list (option string)) :
  NoDup (unique_opt_from seen l).
Proof.
  revert seen. induction l as [| a t IH]; intros seen; simpl; [constructor |].
  destruct (existsb (opt_eqb a) seen); [apply IH |].
  constructor; [| apply IH].
  intros H. apply unique_opt_from_In in H. destruct H as [_ H].
  apply H. now left.
Qed.

Lemma unique_opt_In (x : option string) (l : list (option string)) :
  In x (unique_opt l) <-> In x l.
Proof. unfold unique_opt. rewrite unique_opt_from_In. simpl. tauto. Qed.

Lemma unique_opt_NoDup (l : list (option string)) : NoDup (unique_opt l).
Proof. apply unique_opt_from_NoDup. Qed.

Lemma unique_opt_length_incl (l l' : list (option string)) :
  incl l l' ->
  (List.length (unique_opt l) <= List.length (unique_opt l'))%nat.
Proof.
  intros H. apply NoDup_incl_length; [apply unique_opt_NoDup |].
  intros x Hx. apply unique_opt_In. apply H.
  exact (proj1 (unique_opt_In x l) Hx).
Qed.

Lemma lastn_length {A} (n : nat) (l : list A) :
  (List.length (lastn n l) <= n)%nat.
Proof. unfold lastn. rewrite length_skipn. lia. Qed.

Lemma lastn_all {A} (n : nat) (l : list A) :
  (List.length l <= n)%nat -> lastn n l = l.
Proof.
  intros H. unfold lastn.
  replace (List.length l - n)%nat with 0%nat by lia. reflexivity.
Qed.

Lemma lastn_In {A} (n : nat) (l : list A) (x : A) :
  In x (lastn n l) -> In x l.
Proof.
  unfold lastn. intros H.
  rewrite <- (firstn_skipn (List.length l - n) l).
  apply in_or_app. now right.
Qed.

Lemma code_leb_trans (a b c : option nat) :
  code_leb a b = true -> code_leb b c = true -> code_leb a c = true.
Proof.
  destruct a, b, c; simpl; try congruence.
  rewrite !Nat.leb_le. lia.
Qed.

Lemma code_leb_total (a b : option nat) :
  code_leb a b = false -> code_leb b a = true.
Proof.
  destruct a, b; simpl; try congruence.
  rewrite Nat.leb_gt, Nat.leb_le. lia.
Qed.

Lemma year_month_leb_trans (cats : list string) (a b c : Session) :
  year_month_leb cats a b = true -> year_month_leb cats b c = true ->
  year_month_leb cats a c = true.
Proof.
  unfold year_month_leb. intros H1 H2.
  apply orb_true_iff in H1. apply orb_true_iff in H2.
  apply orb_true_iff.
  destruct H1 as [H1 | H1], H2 as [H2 | H2];
    rewrite ?andb_true_iff, ?Z.ltb_lt, ?Z.eqb_eq in *.
  - left. lia.
  - left. lia.
  - left. lia.
  - right. split; [lia |].
    eapply code_leb_trans; [apply H1 | apply H2].
Qed.

Lemma year_month_leb_total (cats : list string) (a b : Session) :
  year_month_leb cats a b = false -> year_month_leb cats b a = true.
Proof.
  unfold year_month_leb. intros H.
  apply orb_false_iff in H. destruct H as [H1 H2].
  apply andb_false_iff in H2. apply orb_true_iff.
  rewrite Z.ltb_ge in H1.
  destruct (Z.ltb_spec (Year b) (Year a)) as [L | L]; [now left | right].
  assert (E : Year a = Year b) by lia.
  destruct H2 as [H2 | H2].
  - apply Z.eqb_neq in H2. contradiction.
  - rewrite andb_true_iff, Z.eqb_eq. split; [lia |].
    now apply code_leb_total.
Qed.

Lemma StronglySorted_filter {A} (R : A -> A -> Prop) (p : A -> bool)
    (l : list A) :
  StronglySorted R l -> StronglySorted R (filter p l).
Proof.
  induction 1 as [| a l SS IH F]; simpl; [constructor |].
  destruct (p a); [| exact IH].
  constructor; [exact IH |].
  rewrite Forall_forall in *. intros x Hx. apply filter_In in Hx.
  apply F, Hx.
Qed.

(** [filter_last_months] keeps rows of its table only, in the order of
    year then month, and keeps at most three distinct months (its comments
    speak of two); the categories are those of its table. *)
Theorem filter_last_months_spec (df : SessionFrame) :
  let out := filter_last_months df in
  s_categories out = s_categories df
  /\ (forall r, In r (s_rows out) -> In r (s_rows df))
  /\ StronglySorted
       (fun a b => year_month_leb (s_categories df) a b = true) (s_rows out)
  /\ (List.length (months_of out) <= 3)%nat.
Proof.
  cbv zeta. split; [reflexivity |].
  split; [intros r; apply filter_last_months_In |].
  unfold filter_last_months, months_of; cbn [s_rows]. split.
  - apply StronglySorted_filter. apply stable_sort_sorted.
    + apply year_month_leb_trans.
    + auto.
    + apply year_month_leb_total.
  - set (sorted := stable_sort (year_month_leb (s_categories df)) (s_rows df)).
    set (last_months := lastn 3 (unique_opt (map month_name sorted))).
    eapply Nat.le_trans; [| apply (lastn_length 3
                                     (unique_opt (map month_name sorted)))].
    apply NoDup_incl_length; [apply unique_opt_NoDup |].
    intros x Hx. apply (proj1 (unique_opt_In _ _)) in Hx.
    apply in_map_iff in Hx. destruct Hx as [r [<- Hr]].
    apply filter_In in Hr. destruct Hr as [_ Hr].
    exact (proj1 (existsb_opt_eqb _ _) Hr).
Qed.

(** A table with at most three distinct months passes
    [filter_last_months] whole: the result is the table in the order of
    year then month. *)
Theorem filter_last_months_few (df : SessionFrame) :
  (List.length (months_of df) <= 3)%nat ->
  s_rows (filter_last_months df)
  = stable_sort (year_month_leb (s_categories df)) (s_rows df)
  /\ Permutation (s_rows (filter_last_months df)) (s_rows df).
Proof.
  intros H.
  assert (E : s_rows (filter_last_months df)
              = stable_sort (year_month_leb (s_categories df)) (s_rows df)).
  { unfold filter_last_months; cbn [s_rows].
    set (sorted := stable_sort (year_month_leb (s_categories df)) (s_rows df)).
    assert (L : (List.length (unique_opt (map month_name sorted)) <= 3)%nat).
    { eapply Nat.le_trans; [| exact H]. unfold months_of.
      apply unique_opt_length_incl. intros x Hx.
      apply in_map_iff in Hx. destruct Hx as [r [<- Hr]].
      apply in_map. eapply Permutation_in; [apply stable_sort_perm | exact Hr]. }
    rewrite (lastn_all 3 _ L).
    apply forallb_filter_id. apply forallb_forall. intros r Hr.
    apply existsb_opt_eqb, unique_opt_In. now apply in_map. }
  split; [exact E |]. rewrite E. apply stable_sort_perm.
Qed.

Lemma filter_last_months_few_witness :
  Permutation (s_rows (filter_last_months sample_frame)) (s_rows sample_frame).
Proof.
  assert (H : (List.length (months_of sample_frame) <= 3)%nat)
    by (vm_compute; lia).
  exact (proj2 (filter_last_months_few sample_frame H)).
Defined.

Lemma unique_opt_from_skip (a : option string) (seen l : list (option string)) :
  ~ In a l -> unique_opt_from (a :: seen) l = unique_opt_from seen l.
Proof.
  revert seen. induction l as [| x t IH]; intros seen N; simpl; [reflexivity |].
  assert (Nx : a <> x) by (intros ->; apply N; now left).
  assert (Nt : ~ In a t) by (intros H; apply N; now right).
  assert (E : opt_eqb x a = false).
  { destruct (opt_eqb x a) eqn:E; [| reflexivity].
    apply opt_eqb_eq in E. congruence. }
  rewrite E. cbn [orb].
  destruct (existsb (opt_eqb x) seen) eqn:Es.
  - now apply IH.
  - f_equal.
    assert (P : forall s1 s2 l0,
               (forall y, In y s1 <-> In y s2) ->
               unique_opt_from s1 l0 = unique_opt_from s2 l0).
    { clear. intros s1 s2 l0. revert s1 s2.
      induction l0 as [| y t IH]; intros s1 s2 H; simpl; [reflexivity |].
      assert (Ey : existsb (opt_eqb y) s1 = existsb (opt_eqb y) s2).
      { destruct (existsb (opt_eqb y) s1) eqn:E1;
          destruct (existsb (opt_eqb y) s2) eqn:E2; try reflexivity.
        - apply existsb_opt_eqb in E1. apply H in E1.
          apply existsb_opt_eqb in E1. congruence.
        - apply existsb_opt_eqb in E2. apply H in E2.
          apply existsb_opt_eqb in E2. congruence. }
      rewrite Ey. destruct (existsb (opt_eqb y) s2).
      - now apply IH.
      - f_equal. apply IH. intros z. simpl. rewrite H. tauto. }
    rewrite (P (x :: a :: seen) (a :: x :: seen)).
    + now apply IH.
    + intros y. simpl. tauto.
Qed.

Lemma unique_opt_from_filter (p : option string -> bool)
    (seen l : list (option string)) :
  unique_opt_from seen (filter p l) = filter p (unique_opt_from seen l).
Proof.
  revert seen. induction l as [| a t IH]; intros seen; simpl; [reflexivity |].
  destruct (p a) eqn:Pa; simpl.
  - destruct (existsb (opt_eqb a) seen); [apply IH |].
    simpl. rewrite Pa. f_equal. apply IH.
  - destruct (existsb (opt_eqb a) seen); [apply IH |].
    simpl. rewrite Pa. rewrite <- IH.
    symmetry. apply unique_opt_from_skip.
    intros H. apply filter_In in H. destruct H as [_ H]. congruence.
Qed.

Lemma filter_skipn_NoDup (k : nat) (u : list (option string)) :
  NoDup u ->
  filter (fun x => existsb (opt_eqb x) (skipn k u)) u = skipn k u.
Proof.
  revert k. induction u as [| x u IH]; intros k N; [now destruct k |].
  apply NoDup_cons_iff in N. destruct N as [Nx N].
  destruct k as [| k].
  - apply forallb_filter_id. apply forallb_forall. intros y Hy.
    now apply existsb_opt_eqb.
  - cbn [skipn filter].
    assert (E : existsb (opt_eqb x) (skipn k u) = false).
    { destruct (existsb (opt_eqb x) (skipn k u)) eqn:E; [| reflexivity].
      apply existsb_opt_eqb in E. exfalso. apply Nx.
      rewrite <- (firstn_skipn k u). apply in_or_app. now right. }
    rewrite E. now apply IH.
Qed.

(** The months [filter_last_months] keeps are exactly the last three of
    the distinct months met when the rows are read in the order of year
    then month (all of them when there are fewer than three). *)
Theorem filter_last_months_months (df : SessionFrame) :
  months_of (filter_last_months df)
  = lastn 3 (unique_opt
               (map month_name
                    (stable_sort (year_month_leb (s_categories df))
                                 (s_rows df)))).
Proof.
  unfold months_of, filter_last_months; cbn [s_rows].
  set (sorted := stable_sort (year_month_leb (s_categories df)) (s_rows df)).
  set (months := unique_opt (map month_name sorted)).
  rewrite <- (filter_map_comm month_name
                (fun x => existsb (opt_eqb x) (lastn 3 months))).
  unfold unique_opt. rewrite unique_opt_from_filter.
  fold (unique_opt (map month_name sorted)). fold months.
  unfold lastn. apply filter_skipn_NoDup. apply unique_opt_NoDup.
Qed.

(* ================================================================== *)
(** * Sums are kept by the groupings *)






Lemma group_keys_NoDup (l : list string) : NoDup (group_keys l).
Proof.
  eapply StronglySorted_NoDup; [| apply group_keys_sorted].
  exact str_lt_irrefl.
Qed.











(* ================================================================== *)
(** * Further properties of the Totals Augmenter *)


Lemma month_device_leb_trans (cats : list string)
    (a b c : Agg (string * option string)) :
  month_device_leb cats a b = true -> month_device_leb cats b c = true ->
  month_device_leb cats a c = true.
Proof.
  unfold month_device_leb, code_eqb.
  generalize (index_of (month_of a) cats) (index_of (month_of b) cats)
    (index_of (month_of c) cats) (code order (device_of a))
    (code order (device_of b)) (code order (device_of c)).
  intros ma mb mc da db dc.
  destruct ma as [ma |], mb as [mb |], mc as [mc |];
    destruct da as [da |], db as [db |], dc as [dc |]; simpl;
    repeat match goal with
           | |- context [(?x <=? ?y)%nat] => destruct (Nat.leb_spec x y)
           end; simpl; try congruence; try lia.
Qed.

Lemma month_device_leb_total (cats : list string)
    (a b : Agg (string * option string)) :
  month_device_leb cats a b = false -> month_device_leb cats b a = true.
Proof.
  unfold month_device_leb, code_eqb.
  generalize (index_of (month_of a) cats) (index_of (month_of b) cats)
    (code order (device_of a)) (code order (device_of b)).
  intros ma mb da db.
  destruct ma as [ma |], mb as [mb |];
    destruct da as [da |], db as [db |]; simpl;
    repeat match goal with
           | |- context [(?x <=? ?y)%nat] => destruct (Nat.leb_spec x y)
           end; simpl; try congruence; try lia.
Qed.

(** The augmented table is the grouped table, its device labels read in
    the fixed list Desktop, Mobile, Tablet, Total, plus one row of totals
    per month category, put in the order of month then device.  It has as
    many rows as the grouped table and the categories together, and a
    device label outside the fixed list is lost: it reads NaN. *)
Theorem create_month_device_totals_rows (month_device : MonthDeviceFrame) :
  let out := fst (create_month_device_totals month_device) in
  Permutation out
    (map with_device_category
         (md_rows month_device
          ++ map (total_row (md_rows month_device))
                 (md_categories month_device)))
  /\ StronglySorted
       (fun a b => month_device_leb (md_categories month_device) a b = true)
       out
  /\ List.length out
     = (List.length (md_rows month_device)
        + List.length (md_categories month_device))%nat
  /\ (forall r, In r (md_rows month_device) ->
                ~ In (device_of r) order ->
                In {| key := (month_of r, None);
                      agg_sessions := agg_sessions r;
                      agg_transactions := agg_transactions r;
                      agg_QTY := agg_QTY r;
                      ECR := ECR r |} out).
Proof.
  cbv zeta. unfold create_month_device_totals; cbn [fst].
  set (all := map with_device_category
                  (md_rows month_device
                   ++ map (total_row (md_rows month_device))
                          (md_categories month_device))).
  assert (P : Permutation
                (stable_sort (month_device_leb (md_categories month_device))
                             all) all) by apply stable_sort_perm.
  split; [exact P | split; [| split]].
  - apply stable_sort_sorted.
    + apply month_device_leb_trans.
    + auto.
    + apply month_device_leb_total.
  - rewrite (Permutation_length P). unfold all.
    now rewrite length_map, length_app, length_map.
  - intros r Hr Hn.
    eapply Permutation_in; [symmetry; exact P |].
    unfold all. apply in_map_iff. exists r. split.
    + unfold with_device_category.
      now rewrite (categorical_not_In _ _ Hn).
    + apply in_or_app. now left.
Qed.


(* ================================================================== *)
(** * Further properties of the Trend Comparator *)

Lemma zip_with_length {A B C} (f : A -> B -> C) (la : list A) (lb : list B) :
  List.length la = List.length lb ->
  List.length (zip_with f la lb) = List.length la.
Proof.
  revert lb. induction la as [| a ta IH]; intros [| b tb] H;
    simpl in *; try discriminate; [reflexivity |].
  f_equal. apply IH. congruence.
Qed.

Lemma shift_length (l : list Fl) : List.length (shift l) = List.length l.
Proof.
  destruct l as [| x t]; [reflexivity |].
  unfold shift. cbn [List.length]. f_equal.
  rewrite removelast_firstn_len, length_firstn. simpl. lia.
Qed.

Lemma ffill_from_length (last : Fl) (l : list Fl) :
  List.length (ffill_from last l) = List.length l.
Proof.
  revert last. induction l as [| x t IH]; intros last; simpl;
    [reflexivity | now rewrite IH].
Qed.

Lemma diff_length (l : list Fl) : List.length (diff l) = List.length l.
Proof. unfold diff. apply zip_with_length. symmetry. apply shift_length. Qed.

Lemma pct_change_length (l : list Fl) :
  List.length (pct_change l) = List.length l.
Proof.
  unfold pct_change, ffill.
  rewrite zip_with_length; [apply ffill_from_length |].
  symmetry. apply shift_length.
Qed.

Lemma metric_rows_lengths (col : string) (values : list Fl) (n : nat) :
  List.length values = n ->
  Forall (fun row => List.length (snd row) = n) (metric_rows col values).
Proof.
  intros H. unfold metric_rows.
  repeat constructor; cbn [snd].
  - exact H.
  - now rewrite diff_length.
  - now rewrite length_map, pct_change_length.
Qed.

(** The comparison report always has the same fifteen rows, in the order
    of the script's column list, and each row has one entry per month
    column, also when no month is left. *)
Theorem mtm_report_shape (session_counts : SessionFrame) (adds : CartFrame) :
  let report := fst (create_mtm_compare session_counts adds) in
  map fst (mx_rows report) = mtm_labels
  /\ Forall (fun row => List.length (snd row)
                        = List.length (mx_columns report))
            (mx_rows report).
Proof.
  cbv zeta. unfold create_mtm_compare; cbn [fst mx_rows mx_columns].
  split; [reflexivity |].
  rewrite length_map.
  repeat (apply Forall_app; split);
    apply metric_rows_lengths; apply length_map.
Qed.

Lemma fillna0_finite (x : Fl) : finite x -> fillna0 x = x.
Proof. now intros [q ->]. Qed.

Lemma zip_with_map {A B C D} (f : B -> C -> D) (g : A -> B) (h : A -> C)
    (l : list A) :
  zip_with f (map g l) (map h l) = map (fun x => f (g x) (h x)) l.
Proof. induction l as [| a t IH]; simpl; [reflexivity | now rewrite IH]. Qed.

Lemma merge_row (left : list (Agg string)) (adds : CartFrame) (r : Merged) :
  In r (merge left adds) ->
  exists g, In g left
            /\ m_sessions r = agg_sessions g
            /\ m_transactions r = agg_transactions g
            /\ m_QTY r = agg_QTY g
            /\ m_ECR r = ECR g.
Proof.
  unfold merge. intros H.
  apply in_flat_map in H. destruct H as [g [Hg H]].
  apply in_map_iff in H. destruct H as [c [<- _]].
  exists g. now repeat split.
Qed.

(** In every month column of the comparison report the ECR entry is the
    transactions entry divided by the sessions entry, and the sessions,
    transactions and quantity entries are not zero. *)
Theorem mtm_report_ecr (session_counts : SessionFrame) (adds : CartFrame) :
  let report := fst (create_mtm_compare session_counts adds) in
  exists sessions_row transactions_row qty_row ecr_row,
    mx_row "sessions" (mx_rows report) = Some sessions_row
    /\ mx_row "transactions" (mx_rows report) = Some transactions_row
    /\ mx_row "QTY" (mx_rows report) = Some qty_row
    /\ mx_row "ECR" (mx_rows report) = Some ecr_row
    /\ ecr_row = zip_with fl_div transactions_row sessions_row
    /\ Forall (fun x => x <> of_Z 0) sessions_row
    /\ Forall (fun x => x <> of_Z 0) transactions_row
    /\ Forall (fun x => x <> of_Z 0) qty_row.
Proof.
  cbv zeta.
  set (merged := mtm_merged session_counts adds).
  exists (map (fun r => of_Z (m_sessions r)) merged),
    (map (fun r => of_Z (m_transactions r)) merged),
    (map (fun r => of_Z (m_QTY r)) merged),
    (map m_ECR merged).
  assert (R : forall r, In r merged ->
                m_sessions r <> 0 /\ m_transactions r <> 0 /\ m_QTY r <> 0
                /\ m_ECR r = fl_div (of_Z (m_transactions r))
                                    (of_Z (m_sessions r))).
  { intros r Hr. unfold merged, mtm_merged in Hr.
    destruct (merge_row _ _ _ Hr) as [g [Hg [-> [-> [-> ->]]]]].
    destruct (last_three_grouped_ratio _ _ Hg) as [Hs E].
    destruct (in_last_three_grouped _ _ Hg) as [_ [_ Hnz]].
    unfold all_nonzero in Hnz.
    repeat (apply andb_prop in Hnz; destruct Hnz as [Hnz ?]).
    repeat match goal with
           | H : negb (_ =? 0) = true |- _ =>
               apply negb_true_iff in H; apply Z.eqb_neq in H
           end.
    repeat split; try assumption.
    rewrite E. symmetry. apply fl_div_of_Z. }
  assert (NZ : forall (f : Merged -> Z),
             (forall r, In r merged -> f r <> 0) ->
             Forall (fun x => x <> of_Z 0) (map (fun r => of_Z (f r)) merged)).
  { intros f Hf. apply Forall_forall. intros x Hx.
    apply in_map_iff in Hx. destruct Hx as [r [<- Hr]].
    unfold of_Z. intros [= E]. apply (Hf r Hr).
    apply Q2Qc_inject_Z_zero. unfold Qc0. apply Qc_is_canon.
    simpl. now rewrite E. }
  repeat split; try reflexivity.
  - rewrite zip_with_map. apply map_ext_in. intros r Hr. apply (R r Hr).
  - apply NZ. intros r Hr. apply (R r Hr).
  - apply NZ. intros r Hr. apply (R r Hr).
  - apply NZ. intros r Hr. apply (R r Hr).
Qed.

Lemma Qcdiv_nonzero (a b : Qc) : a <> Qc0 -> b <> Qc0 -> Qcdiv a b <> Qc0.
Proof.
  unfold Qc0. change (Q2Qc 0) with 0%Qc.
  intros Ha Hb E. unfold Qcdiv in E.
  apply Qcmult_integral in E. destruct E as [E | E]; [contradiction |].
  pose proof (Qcmult_inv_r b Hb) as I. rewrite E in I.
  rewrite Qcmult_0_r in I. discriminate I.
Qed.

Lemma all_nonzero_aggregate (m : string) (rows : list Session) :
  all_nonzero (fill_row (aggregate m rows)) = true <->
  sumZ (map sessions rows) <> 0
  /\ sumZ (map transactions rows) <> 0
  /\ sumZ (map QTY rows) <> 0.
Proof.
  unfold all_nonzero, fill_row, aggregate;
    cbn [agg_sessions agg_transactions agg_QTY ECR].
  rewrite !andb_true_iff, !negb_true_iff, !Z.eqb_neq. split.
  - intros [[[Hs Ht] Hq] _]. auto.
  - intros [Hs [Ht Hq]]. repeat split; try assumption.
    rewrite fl_div_of_Z, (ratio_nonzero _ _ Hs). cbn [fillna0].
    unfold fl_nonzero, fl_eqb.
    destruct (Qc_eq_dec _ Qc0) as [E | _]; [| reflexivity].
    exfalso. revert E. apply Qcdiv_nonzero.
    + intros E. apply Q2Qc_inject_Z_zero in E. contradiction.
    + intros E. apply Q2Qc_inject_Z_zero in E. contradiction.
Qed.

(** A month labels a column of the comparison report exactly when it is a
    category of the session table, the sessions, the transactions and the
    quantities of its rows among the selected months each add up to
    something other than zero, and the cart table has a row of that month.
    One zero sum is enough to drop the month. *)
Theorem mtm_columns (session_counts : SessionFrame) (adds : CartFrame)
    (m : string) :
  let selected :=
    filter (month_is m) (s_rows (filter_last_months session_counts)) in
  In m (mx_columns (fst (create_mtm_compare session_counts adds))) <->
  In m (s_categories session_counts)
  /\ sumZ (map sessions selected) <> 0
  /\ sumZ (map transactions selected) <> 0
  /\ sumZ (map QTY selected) <> 0
  /\ exists c, In c (c_rows adds) /\ c_month_name c = Some m.
Proof.
  cbv zeta. unfold create_mtm_compare; cbn [fst mx_columns].
  unfold mtm_merged, merge, last_three_grouped.
  rewrite in_map_iff. split.
  - intros [r [<- H]].
    apply in_flat_map in H. destruct H as [g [Hg H]].
    apply in_map_iff in H. destruct H as [c [<- Hc]].
    apply filter_In in Hc. destruct Hc as [Hc Ec].
    apply opt_eqb_eq in Ec. cbn [m_month_name].
    apply filter_In in Hg. destruct Hg as [Hg Hnz].
    apply in_map_iff in Hg. destruct Hg as [g0 [<- Hg]].
    apply in_map_iff in Hg. destruct Hg as [m0 [<- Hm0]].
    cbn [fill_row aggregate key] in *.
    apply all_nonzero_aggregate in Hnz.
    split; [exact Hm0 |].
    destruct Hnz as [Hs [Ht Hq]].
    repeat split; try assumption. now exists c.
  - intros [Hm [Hs [Ht [Hq [c [Hc Ec]]]]]].
    set (g := fill_row (aggregate m
                (filter (month_is m)
                        (s_rows (filter_last_months session_counts))))).
    exists {| m_month_name := key g;
              m_sessions := agg_sessions g;
              m_transactions := agg_transactions g;
              m_QTY := agg_QTY g;
              m_ECR := ECR g;
              m_addsToCart := addsToCart c |}.
    split; [reflexivity |].
    apply in_flat_map. exists g. split.
    + apply filter_In. split.
      * apply in_map. apply in_map_iff. exists m. split; [reflexivity | exact Hm].
      * apply all_nonzero_aggregate. auto.
    + apply in_map_iff. exists c. split; [reflexivity |].
      apply filter_In. split; [exact Hc |]. now apply opt_eqb_eq.
Qed.

Lemma mtm_columns_witness :
  In "July" (mx_columns (fst (create_mtm_compare
                                (snd (create_month_device sample_frame))
                                sample_cart))).
Proof.
  apply (proj2 (mtm_columns (snd (create_month_device sample_frame))
                            sample_cart "July")).
  split; [unfold month_order; simpl; tauto |].
  split; [vm_compute; discriminate |].
  split; [vm_compute; discriminate |].
  split; [vm_compute; discriminate |].
  eexists. split; [left; reflexivity | reflexivity].
Defined.

(* ================================================================== *)
(** * Further properties of the browser report and of the pipeline *)

Lemma StronglySorted_app_inv {A} (R : A -> A -> Prop) (l1 l2 : list A) :
  StronglySorted R (l1 ++ l2) ->
  forall x y, In x l1 -> In y l2 -> R x y.
Proof.
  induction l1 as [| a l1 IH]; intros S x y Hx Hy; [contradiction |].
  simpl in S. apply StronglySorted_inv in S. destruct S as [S F].
  destruct Hx as [<- | Hx].
  - rewrite Forall_forall in F. apply F. apply in_or_app. now right.
  - now apply IH.
Qed.

Lemma StronglySorted_map_inv {A B} (R : B -> B -> Prop) (f : A -> B)
    (l : list A) :
  StronglySorted R (map f l) ->
  StronglySorted (fun x y => R (f x) (f y)) l.
Proof.
  induction l as [| a l IH]; intros S; [constructor |].
  simpl in S. apply StronglySorted_inv in S. destruct S as [S F].
  constructor; [now apply IH |].
  rewrite Forall_forall in *. intros x Hx. apply F. now apply in_map.
Qed.

Lemma create_browser_device_keys (md : SessionFrame) :
  map key (fst (create_browser_device md))
  = group_keys (map dim_browser (s_rows md)).
Proof.
  unfold create_browser_device; cbn [fst].
  rewrite map_map. rewrite <- (map_id (group_keys _)) at 2.
  apply map_ext. reflexivity.
Qed.

(** Whatever numpy does with equal values, the browser report is a top
    list: it holds the 20 rows of the grouped table with most sessions, or
    all rows when there are fewer, no browser twice, and no row left out
    has more sessions than a row kept. *)
Theorem top_browsers_top (argsort : list Z -> list nat) (md : SessionFrame) :
  argsort_spec argsort ->
  let browser := fst (create_browser_device md) in
  let out := top_browsers argsort browser in
  List.length out = Nat.min 20 (List.length browser)
  /\ NoDup (map key out)
  /\ exists rest,
       Permutation (out ++ rest) browser
       /\ forall x y, In x out -> In y rest ->
                      agg_sessions y <= agg_sessions x.
Proof.
  intros Spec browser out. unfold out, top_browsers.
  set (idx := nargsort_desc argsort (map agg_sessions browser)).
  assert (P : Permutation idx (seq 0 (List.length browser))).
  { unfold idx. rewrite <- (length_map agg_sessions browser).
    now apply nargsort_desc_perm. }
  assert (PT : Permutation (take browser idx) browser)
    by now apply take_perm.
  assert (S : StronglySorted
                (fun x y => agg_sessions y <= agg_sessions x)
                (take browser idx)).
  { apply (StronglySorted_map_inv (fun a b => b <= a) agg_sessions).
    rewrite (map_take agg_sessions 0).
    - now apply nargsort_desc_sorted.
    - apply Forall_forall. intros i Hi.
      apply (Permutation_in _ P) in Hi. apply in_seq in Hi. lia. }
  split; [| split].
  - rewrite length_firstn, (Permutation_length PT). reflexivity.
  - assert (N : NoDup (map key (take browser idx))).
    { eapply Permutation_NoDup;
        [symmetry; apply Permutation_map; exact PT |].
      unfold browser. rewrite create_browser_device_keys.
      apply group_keys_NoDup. }
    rewrite <- (firstn_skipn 20 (take browser idx)), map_app in N.
    now apply NoDup_app_remove_r in N.
  - exists (skipn 20 (take browser idx)). split.
    + now rewrite firstn_skipn.
    + rewrite <- (firstn_skipn 20 (take browser idx)) in S.
      intros x y Hx Hy.
      exact (StronglySorted_app_inv _ _ _ S x y Hx Hy).
Qed.

Lemma top_browsers_top_witness :
  List.length (top_browsers (insertion_argsort Z.leb)
                            (fst (create_browser_device sample_frame)))
  = 3%nat.
Proof.
  rewrite (proj1 (top_browsers_top (insertion_argsort Z.leb) sample_frame
                                   leb_argsort_spec)).
  vm_compute. reflexivity.
Defined.





Lemma filter_last_months_spec_witness :
  List.length (months_of (filter_last_months sample_frame)) = 2%nat
  /\ (List.length (months_of (filter_last_months sample_frame)) <= 3)%nat.
Proof.
  split; [vm_compute; reflexivity |].
  exact (proj2 (proj2 (proj2 (filter_last_months_spec sample_frame)))).
Defined.

Lemma create_month_device_totals_rows_witness :
  exists r,
    In r (fst (create_month_device_totals
                 (fst (create_month_device tv_frame))))
    /\ key r = ("July", None) /\ agg_sessions r = 8.
Proof.
  set (month_device := fst (create_month_device tv_frame)).
  set (row := nth 0 (md_rows month_device)
                  (aggregate ("", "") [])).
  assert (Hr : In row (md_rows month_device))
    by (vm_compute; left; reflexivity).
  assert (Hn : ~ In (device_of row) order).
  { vm_compute. intros [H | [H | [H | [H | []]]]]; discriminate. }
  eexists. split.
  - exact (proj2 (proj2 (proj2
             (create_month_device_totals_rows month_device))) row Hr Hn).
  - split; vm_compute; reflexivity.
Defined.

(* ================================================================== *)
(** * Splitting dates *)

Lemma split_nonempty (sep : ascii) (s : string) : split sep s <> [].
Proof.
  destruct s as [| c r]; simpl; [discriminate |].
  destruct (Ascii.eqb c sep); [discriminate |].
  destruct (split sep r); discriminate.
Qed.

(** Splitting a date at the slashes loses nothing: joining the parts with
    slashes gives the date back, there is one part more than there are
    slashes, and no part holds a slash. *)
Theorem split_join (s : string) :
  join "/" (split "/" s) = s
  /\ List.length (split "/" s) = S (count_char "/" s)
  /\ Forall (fun p => no_slash p = true) (split "/" s).
Proof.
  induction s as [| c r [IHj [IHl IHn]]]; simpl.
  - repeat split. repeat constructor.
  - destruct (Ascii.eqb_spec c "/") as [-> | Hne].
    + split; [| split].
      * pose proof (split_nonempty "/" r) as NE.
        destruct (split "/" r) as [| p rest] eqn:E; [congruence |].
        cbn [join append]. now rewrite <- IHj.
      * simpl. now rewrite IHl.
      * constructor; [reflexivity | exact IHn].
    + pose proof (split_nonempty "/" r) as NE.
      destruct (split "/" r) as [| p rest] eqn:E; [congruence |].
      assert (Nc : Ascii.eqb c "/" = false) by now apply Ascii.eqb_neq.
      split; [| split].
      * rewrite <- IHj. destruct rest; reflexivity.
      * simpl in *. lia.
      * apply Forall_cons_iff in IHn. destruct IHn as [Hp Hrest].
        constructor; [| exact Hrest]. simpl. now rewrite Nc, Hp.
Qed.
